(** * Huffman encoder (huffman.py): shallow embedding and verification

    The Python module is embedded function by function.  Python [int] is
    [Z]; a Python [str] built by the program is a [string]; the text read
    from a file is a list of code points ([ord] of each character); a
    Python list is a [list] indexed with Python's rules (negative indices
    count from the end, anything else out of range raises [IndexError]).
    Exceptions are explicit results, and the one unbounded recursion
    ([huff_helper]) carries a recursion budget. *)

From Stdlib Require Import ZArith Lia Ascii.
From stdpp Require Import base list sorting strings pretty gmap.

Open Scope Z_scope.

(** ** Results of running Python code *)

Inductive exn := FileNotFoundError | IndexError | AttributeError.

Inductive outcome (A : Type) :=
| Done (a : A)          (* normal return *)
| Raised (e : exn)      (* an exception propagates *)
| Diverge.              (* the recursion budget ran out *)
Arguments Done {A} a.
Arguments Raised {A} e.
Arguments Diverge {A}.

Global Instance outcome_ret : MRet outcome := λ A a, Done a.
Global Instance outcome_bind : MBind outcome := λ A B k m,
  match m with
  | Done a => k a
  | Raised e => Raised e
  | Diverge => Diverge
  end.

(** ** Python list indexing *)

Section PyList.
Context {A : Type}.

(** Position denoted by the Python index [i] in a list of length [n]. *)
Definition py_index (n : nat) (i : Z) : option nat :=
  if 0 <=? i then
    if i <? Z.of_nat n then Some (Z.to_nat i) else None
  else
    if - Z.of_nat n <=? i then Some (Z.to_nat (Z.of_nat n + i)) else None.

(** [l[i]] *)
Definition getitem (l : list A) (i : Z) : outcome A :=
  match py_index (length l) i with
  | Some k => match l !! k with Some x => Done x | None => Raised IndexError end
  | None => Raised IndexError
  end.

(** [l[i] = v] *)
Definition setitem (l : list A) (i : Z) (v : A) : outcome (list A) :=
  match py_index (length l) i with
  | Some k => Done (<[k := v]> l)
  | None => Raised IndexError
  end.
End PyList.

(** ** The data model *)

(** [HTree = Union[None, HuffmanNode]] is [option HuffmanNode]. *)
#[warnings="-register-all"]
Inductive HuffmanNode := mkHuffmanNode {
  char_ascii : Z;
  freq : Z;
  left : option HuffmanNode;
  right : option HuffmanNode
}.

Definition leaf (c f : Z) : HuffmanNode := mkHuffmanNode c f None None.

(** ** comes_before and combine *)

Definition comes_before (a b : HuffmanNode) : bool :=
  if freq a <? freq b then true
  else if freq a =? freq b then
    if char_ascii a <? char_ascii b then true else false
  else false.

Definition combine (a b : HuffmanNode) : HuffmanNode :=
  if freq a <? freq b then
    if char_ascii a <? char_ascii b
    then mkHuffmanNode (char_ascii a) (freq a + freq b) (Some a) (Some b)
    else mkHuffmanNode (char_ascii b) (freq a + freq b) (Some a) (Some b)
  else if freq a =? freq b then
    if char_ascii a <? char_ascii b
    then mkHuffmanNode (char_ascii a) (freq a + freq b) (Some a) (Some b)
    else mkHuffmanNode (char_ascii b) (freq a + freq b) (Some b) (Some a)
  else
    if char_ascii a <? char_ascii b
    then mkHuffmanNode (char_ascii a) (freq a + freq b) (Some b) (Some a)
    else mkHuffmanNode (char_ascii b) (freq a + freq b) (Some b) (Some a).

(** [HuffmanNode.__lt__]: the other operand is an [HTree], so it may be
    None, on which comes_before fails at [b.freq]. *)
Definition HuffmanNode_lt (self : HuffmanNode) (other : option HuffmanNode)
    : outcome bool :=
  match other with
  | None => Raised AttributeError
  | Some other => Done (comes_before self other)
  end.

(** ** Files *)

(** The text of a file is the list of the code points of its characters,
    as [file.read()] followed by [ord] yields them. *)
Abbreviation text := (list N).
Definition ord (c : N) : Z := Z.of_N c.

(** Code points of a string the program writes. *)
Definition text_of_string (s : string) : text :=
  Ascii.N_of_ascii <$> String.list_ascii_of_string s.

(** The file system maps the names of the existing files to their text.
    A program that touches files is a function of the file system that gives
    its result and the file system it leaves. *)
Definition io (A : Type) : Type :=
  gmap string text → outcome A * gmap string text.

Definition io_ret {A} (a : A) : io A := λ fs, (Done a, fs).
Definition io_bind {A B} (m : io A) (k : A → io B) : io B := λ fs,
  match m fs with
  | (Done a, fs') => k a fs'
  | (Raised e, fs') => (Raised e, fs')
  | (Diverge, fs') => (Diverge, fs')
  end.
Definition lift {A} (m : outcome A) : io A := λ fs, (m, fs).
Definition raise {A} (e : exn) : io A := λ fs, (Raised e, fs).

Global Instance io_mret : MRet io := @io_ret.
Global Instance io_mbind : MBind io := λ A B k m, io_bind m k.

(** [os.path.isfile(name)] *)
Definition isfile (name : string) : io bool := λ fs,
  (Done (bool_decide (is_Some (fs !! name))), fs).

(** [with open(name) as file: file.read()] *)
Definition read_file (name : string) : io text := λ fs,
  match fs !! name with
  | Some data => (Done data, fs)
  | None => (Raised FileNotFoundError, fs)
  end.

(** [open(name, "w")]: the file is created, or emptied if it was there. *)
Definition open_w (name : string) : io unit := λ fs,
  (Done (), <[name := []]> fs).

(** [output.write(s)] on the file opened under [name]. *)
Definition write (name : string) (s : string) : io unit := λ fs,
  (Done (), <[name := default [] (fs !! name) ++ text_of_string s]> fs).

(** ** cnt_freq *)

Fixpoint count_loop (data : text) (values : list Z) : outcome (list Z) :=
  match data with
  | [] => Done values
  | char :: data' =>
      v ← getitem values (ord char);
      values' ← setitem values (ord char) (v + 1);
      count_loop data' values'
  end.

Definition cnt_freq (filename : string) : io (list Z) :=
  b ← isfile filename;
  if negb b then raise FileNotFoundError
  else
    data ← read_file filename;
    lift (count_loop data (replicate 256 0)).

(** ** huff_helper *)

(** The body of the [for x in range(len(huf_lis) - 1)] loop; [rec] is the
    recursive call, which works on the same list object, so the loop goes
    on with the list as the call left it. *)
Fixpoint huff_for (rec : list HuffmanNode → outcome (list HuffmanNode))
    (xs : list nat) (huf_lis : list HuffmanNode) : outcome (list HuffmanNode) :=
  match xs with
  | [] => Done huf_lis
  | x :: xs' =>
      match huf_lis !! x, huf_lis !! (x + 1)%nat with
      | Some a, Some b =>
          if comes_before a b then huff_for rec xs' huf_lis
          else
            huf_lis' ← rec (<[(x + 1)%nat := a]> (<[x := b]> huf_lis));
            huff_for rec xs' huf_lis'
      | _, _ => Raised IndexError
      end
  end.

Fixpoint huff_helper (fuel : nat) (huf_lis : list HuffmanNode)
    : outcome (list HuffmanNode) :=
  match fuel with
  | O => Diverge
  | S fuel' =>
      huff_for (huff_helper fuel') (seq 0 (length huf_lis - 1)) huf_lis
  end.

(** ** create_huff_tree *)

Definition sum (l : list Z) : Z := foldr Z.add 0 l.

(** [list.sort(key=freq)]: Python's sort is stable, so its result is the
    one list ordered by key that keeps equal keys in their order. *)
Fixpoint insert_by_freq (x : HuffmanNode) (l : list HuffmanNode) : list HuffmanNode :=
  match l with
  | [] => [x]
  | y :: l' => if freq x <=? freq y then x :: y :: l' else y :: insert_by_freq x l'
  end.

Definition sort_by_freq (l : list HuffmanNode) : list HuffmanNode :=
  foldr insert_by_freq [] l.

(** The loop that creates the leaves, with its counter [i]. *)
Fixpoint leaf_loop (char_freq : list Z) (i : Z) (huf_lis : list HuffmanNode)
    : list HuffmanNode :=
  match char_freq with
  | [] => huf_lis
  | f :: char_freq' =>
      leaf_loop char_freq' (i + 1)
        (if f =? 0 then huf_lis else huf_lis ++ [mkHuffmanNode i f None None])
  end.

(** [while len(huf_lis) >= 2: ...] *)
Fixpoint merge_loop (fuel : nat) (huf_lis : list HuffmanNode)
    : outcome (list HuffmanNode) :=
  match fuel with
  | O => Diverge
  | S fuel' =>
      match huf_lis with
      | a :: b :: _ =>
          let new_node := combine a b in
          let huf_lis := huf_lis ++ [new_node] in
          let huf_lis := drop 2 huf_lis in
          let huf_lis := sort_by_freq huf_lis in
          huf_lis ← huff_helper fuel huf_lis;
          merge_loop fuel' huf_lis
      | _ => Done huf_lis
      end
  end.

Definition create_huff_tree (fuel : nat) (char_freq : list Z)
    : outcome (option HuffmanNode) :=
  if sum char_freq =? 0 then Done None
  else
    let huf_lis := leaf_loop char_freq 0 [] in
    let huf_lis := sort_by_freq huf_lis in
    huf_lis ← huff_helper fuel huf_lis;
    huf_lis ← merge_loop fuel huf_lis;
    r ← getitem huf_lis 0;
    Done (Some r).

(** ** create_code *)

Fixpoint create_code_helper (node : HuffmanNode) (code : string)
    (py_list : list string) : outcome (list string) :=
  match node with
  | mkHuffmanNode c _ None None => setitem py_list c code
  | mkHuffmanNode _ _ l r =>
      match l with
      | None => Raised AttributeError
      | Some l =>
          py_list ← create_code_helper l (code +:+ "0") py_list;
          match r with
          | None => Raised AttributeError
          | Some r => create_code_helper r (code +:+ "1") py_list
          end
      end
  end.

Definition create_code (node : option HuffmanNode) : outcome (list string) :=
  match node with
  | None => Raised AttributeError
  | Some n => create_code_helper n "" (replicate 256 "")
  end.

(** ** create_header *)

Definition newline : string := String (Ascii.ascii_of_nat 10) "".

(** [str] of an integer. *)
Definition str (z : Z) : string := pretty z.

(** [s[0:stop]] *)
Definition slice_to (s : string) (stop : Z) : string :=
  let n := Z.of_nat (String.length s) in
  let stop := if stop <? 0 then Z.max 0 (stop + n) else Z.min stop n in
  String.substring 0 (Z.to_nat stop) s.

Fixpoint header_loop (freqs : list Z) (count : Z) (header : string) : string :=
  match freqs with
  | [] => header
  | f :: freqs' =>
      header_loop freqs' (count + 1)
        (if f =? 0 then header
         else header +:+ str count +:+ " " +:+ str f +:+ " ")
  end.

Definition create_header (freqs : list Z) : string :=
  let header := header_loop freqs 0 "" in
  slice_to header (Z.of_nat (String.length header) - 1).

(** ** huffman_encode *)

Fixpoint encode_loop (phrase : text) (code_list : list string) (code : string)
    : outcome string :=
  match phrase with
  | [] => Done code
  | char :: phrase' =>
      c ← getitem code_list (ord char);
      encode_loop phrase' code_list (code +:+ c)
  end.

Definition huffman_encode (fuel : nat) (in_file out_file : string) : io unit :=
  freqlist ← cnt_freq in_file;
  huff ← lift (create_huff_tree fuel freqlist);
  match huff with
  | None => open_w out_file
  | Some _ =>
      code_list ← lift (create_code huff);
      phrase ← read_file in_file;
      code ← lift (encode_loop phrase code_list "");
      let header := create_header freqlist in
      _ ← open_w out_file;
      _ ← write out_file (header +:+ newline);
      write out_file code
  end.

(** * Vocabulary of the specification *)

(** ** Order and sortedness *)

(** What comes_before compares: weight first, then symbol id. *)
Definition key (n : HuffmanNode) : Z * Z := (freq n, char_ascii n).

(** No adjacent pair of the list is out of order. *)
Definition adjacent_sorted (l : list HuffmanNode) : Prop :=
  ∀ x a b, l !! x = Some a → l !! S x = Some b → comes_before a b = true.

(** comes_before as a relation. *)
Definition before (a b : HuffmanNode) : Prop := comes_before a b = true.

(** Number of later elements that come strictly before an earlier one. *)
Fixpoint count_before (a : HuffmanNode) (l : list HuffmanNode) : nat :=
  match l with
  | [] => 0
  | b :: l' => ((if comes_before b a then 1 else 0) + count_before a l')%nat
  end.

(** Number of pairs of positions, adjacent or not, whose later node comes
    before the earlier one. *)
Fixpoint inversions (l : list HuffmanNode) : nat :=
  match l with
  | [] => 0
  | a :: l' => (count_before a l' + inversions l')%nat
  end.

(** ** Trees *)

Definition on_child {A} (g : HuffmanNode → list A) (t : option HuffmanNode) : list A :=
  match t with Some n => g n | None => [] end.

(** The leaves below a node, left to right, as (symbol id, weight). *)
Fixpoint leaves (n : HuffmanNode) : list (Z * Z) :=
  match n with
  | mkHuffmanNode c f None None => [(c, f)]
  | mkHuffmanNode _ _ l r => on_child leaves l ++ on_child leaves r
  end.

(** All the nodes of the tree rooted at a node. *)
Fixpoint nodes (n : HuffmanNode) : list HuffmanNode :=
  n :: on_child nodes (left n) ++ on_child nodes (right n).

(** Every node has both children or none. *)
Fixpoint full (n : HuffmanNode) : Prop :=
  match n with
  | mkHuffmanNode _ _ None None => True
  | mkHuffmanNode _ _ (Some l) (Some r) => full l ∧ full r
  | _ => False
  end.

(** [m] is the least element of [l]. *)
Definition is_minimum (m : Z) (l : list Z) : Prop := m ∈ l ∧ Forall (Z.le m) l.

(** The weight of a node is the sum of the weights of its leaves and its
    symbol id the least of their ids. *)
Definition node_ok (n : HuffmanNode) : Prop :=
  freq n = sum (leaves n).*2 ∧ is_minimum (char_ascii n) (leaves n).*1.

(** [node_ok] at every node of a tree. *)
Definition tree_inv (n : HuffmanNode) : Prop := Forall node_ok (nodes n).

(** Induction on trees, with the hypothesis for the children that are
    there. *)
Definition opt_pred (P : HuffmanNode → Prop) (t : option HuffmanNode) : Prop :=
  match t with Some n => P n | None => True end.

Fixpoint HuffmanNode_tree_ind (P : HuffmanNode → Prop)
    (step : ∀ c f l r, opt_pred P l → opt_pred P r → P (mkHuffmanNode c f l r))
    (n : HuffmanNode) : P n :=
  match n with
  | mkHuffmanNode c f l r =>
      step c f l r
        (match l with Some l' => HuffmanNode_tree_ind P step l' | None => I end)
        (match r with Some r' => HuffmanNode_tree_ind P step r' | None => I end)
  end.

(** The order of the symbol ids alone, as the leaves are created. *)
Definition id_before (a b : HuffmanNode) : Prop := char_ascii a < char_ascii b.

(** ** The construction of the tree *)

(** [x] comes before every node of [others]. *)
Definition lowest (x : HuffmanNode) (others : list HuffmanNode) : Prop :=
  Forall (before x) others.

(** One step of the construction as the specification words it: the two
    lowest nodes of the working multiset are taken out, and their
    combination is put in. *)
Inductive merge_step : list HuffmanNode → list HuffmanNode → Prop :=
| merge_step_intro ws ws' x y rest :
    ws ≡ₚ x :: y :: rest → lowest x (y :: rest) → lowest y rest →
    ws' ≡ₚ combine x y :: rest →
    merge_step ws ws'.

(** Steps are taken until one node remains: the root. *)
Inductive builds : list HuffmanNode → HuffmanNode → Prop :=
| builds_root r : builds [r] r
| builds_step ws ws' r : merge_step ws ws' → builds ws' r → builds ws r.

(** The invariant of the working list: full trees that satisfy [tree_inv]
    and share out the leaves [L] the construction started from. *)
Record forest_inv (L : list (Z * Z)) (ws : list HuffmanNode) : Prop := {
  forest_full : Forall full ws;
  forest_tree_inv : Forall tree_inv ws;
  forest_leaves : ws ≫= leaves ≡ₚ L
}.

(** The (symbol, count) pairs with a nonzero count, symbols counted from
    [i], in ascending order. *)
Fixpoint nonzero_from (i : Z) (freqs : list Z) : list (Z * Z) :=
  match freqs with
  | [] => []
  | f :: freqs' =>
      (if f =? 0 then [] else [(i, f)]) ++ nonzero_from (i + 1) freqs'
  end.

Definition nonzero_pairs (freqs : list Z) : list (Z * Z) := nonzero_from 0 freqs.

(** Number of symbols with a nonzero count. *)
Definition nonzero_count (freqs : list Z) : nat :=
  length (filter (λ f, f ≠ 0) freqs).

Definition leaf_of (p : Z * Z) : HuffmanNode := leaf p.1 p.2.

(** One leaf per symbol with a nonzero count. *)
Definition leaf_nodes (freqs : list Z) : list HuffmanNode :=
  leaf_of <$> nonzero_pairs freqs.

(** ** Codes, texts and headers *)

(** [s] is a prefix of [t]. *)
Definition is_prefix (s t : string) : Prop := ∃ k, t = s +:+ k.

(** The path to every leaf below a node, as the digits appended to [code]
    on the way down. *)
Fixpoint code_paths (n : HuffmanNode) (code : string) : list (Z * string) :=
  match n with
  | mkHuffmanNode c _ None None => [(c, code)]
  | mkHuffmanNode _ _ l r =>
      on_child (λ n, code_paths n (code +:+ "0")) l ++
      on_child (λ n, code_paths n (code +:+ "1")) r
  end.

(** The assignment create_code_helper makes at a leaf. *)
Definition set_code (py_list : list string) (p : Z * string) : list string :=
  <[Z.to_nat p.1 := p.2]> py_list.

(** Number of occurrences of the character with code point [i]. *)
Definition occurrences (i : nat) (data : text) : Z :=
  Z.of_nat (length (filter (λ c, c = N.of_nat i) data)).

(** Every character has a code point below 256. *)
Definition in_alphabet (data : text) : Prop := Forall (λ c, (c < 256)%N) data.

(** The text of one pair: symbol, space, count. *)
Definition pair_text (p : Z * Z) : string := str p.1 +:+ " " +:+ str p.2.

(** What the loop of create_header builds: every pair followed by a space. *)
Fixpoint spaced (ps : list (Z * Z)) : string :=
  match ps with
  | [] => ""
  | p :: ps' => pair_text p +:+ " " +:+ spaced ps'
  end.

(** The codes of the characters of the text, one after the other. *)
Fixpoint payload (code_list : list string) (phrase : text) : string :=
  match phrase with
  | [] => ""
  | char :: phrase' =>
      default "" (code_list !! N.to_nat char) +:+ payload code_list phrase'
  end.

(** ** Worked examples *)

(** The frequency tables of "aaabbbbcc" and of "zzzz". *)
Definition abc_freqs : list Z := replicate 97 0 ++ [3; 4; 2] ++ replicate 156 0.
Definition zzzz_freqs : list Z := replicate 122 0 ++ [4] ++ replicate 133 0.

(** Number of adjacent pairs that are out of order. *)
Fixpoint out_of_order_pairs (l : list HuffmanNode) : nat :=
  match l with
  | a :: l' =>
      match l' with
      | b :: _ => ((if comes_before a b then 0 else 1) + out_of_order_pairs l')%nat
      | [] => 0%nat
      end
  | [] => 0%nat
  end.

(** A file holding one character outside the 256 entries: the left double
    quotation mark, code point 8220. *)
Definition quote_fs : gmap string text := {[ "in" := [8220%N] ]}.

(** The files of the worked examples, and an empty one. *)
Definition abc_fs : gmap string text := {[ "in" := text_of_string "aaabbbbcc" ]}.
Definition zzzz_fs : gmap string text := {[ "in" := text_of_string "zzzz" ]}.
Definition empty_fs : gmap string text := {[ "in" := [] ]}.

(** ** Vocabulary of the further properties *)

(** A list whose entries cancel: not a table of counts. *)
Definition cancelling : list Z := [1; -1].

(** The table of "aaabbbbcc" cut after its last nonzero entry. *)
Definition abc_short : list Z := replicate 97 0 ++ [3; 4; 2].

(** The characters of a string. *)
Definition string_chars (s : string) : list Ascii.ascii :=
  String.list_ascii_of_string s.

(** A string of the digits 0 and 1. *)
Definition binary (s : string) : Prop :=
  Forall (λ a, a = "0"%char ∨ a = "1"%char) (string_chars s).

(** The character of [newline]. *)
Definition newline_char : Ascii.ascii := Ascii.ascii_of_nat 10.

(** A decimal digit or the minus sign: the characters of [str]. *)
Definition number_char (a : Ascii.ascii) : Prop :=
  a = "-"%char ∨
  (48 ≤ Z.of_N (Ascii.N_of_ascii a) ∧ Z.of_N (Ascii.N_of_ascii a) ≤ 57).

(** The characters of a header: those of numbers, and the space. *)
Definition header_char (a : Ascii.ascii) : Prop :=
  a = " "%char ∨ number_char a.

(** Every character of the text has a nonzero count in the table. *)
Definition uses (freqs : list Z) (data : text) : Prop :=
  Forall (λ c, ∃ f, freqs !! N.to_nat c = Some f ∧ f ≠ 0) data.

(** Count times code length, summed over the table. *)
Definition weighted_length (freqs : list Z) (code_list : list string) : Z :=
  sum (zip_with (λ f code, f * Z.of_nat (String.length code)) freqs code_list).

(** The tree and the code table of "aaabbbbcc". *)
Definition abc_root : HuffmanNode :=
  mkHuffmanNode 97 9 (Some (leaf 98 4))
    (Some (mkHuffmanNode 97 5 (Some (leaf 99 2)) (Some (leaf 97 3)))).
Definition abc_codes : list string :=
  replicate 97 "" ++ ["11"; "0"; "10"] ++ replicate 156 "".

(** At a node with two children the left one comes before the right one,
    and the node has the sum of their weights and the lesser of their
    symbol ids; so it is at every node below. *)
Fixpoint ordered (n : HuffmanNode) : Prop :=
  match n with
  | mkHuffmanNode c f (Some l) (Some r) =>
      comes_before l r = true ∧ f = freq l + freq r ∧
      c = Z.min (char_ascii l) (char_ascii r) ∧ ordered l ∧ ordered r
  | mkHuffmanNode _ _ None None => True
  | _ => False
  end.

(** The ids of the leaves of a tree are valid Python indices of a list of
    [n] entries. *)
Definition ids_in_range (n : nat) (t : HuffmanNode) : Prop :=
  Forall (λ i, - Z.of_nat n ≤ i < Z.of_nat n) (leaves t).*1.

(** * Properties *)

(** ** The node order *)

Lemma comes_before_spec a b :
  comes_before a b = true ↔
  freq a < freq b ∨ (freq a = freq b ∧ char_ascii a < char_ascii b).
Proof.
  unfold comes_before.
  destruct (Z.ltb_spec (freq a) (freq b)); [intuition lia|].
  destruct (Z.eqb_spec (freq a) (freq b));
    destruct (Z.ltb_spec (char_ascii a) (char_ascii b)); intuition (lia || congruence).
Qed.

Lemma comes_before_irrefl a : comes_before a a = false.
Proof.
  destruct (comes_before a a) eqn:E; [|done].
  apply comes_before_spec in E. lia.
Qed.

Lemma comes_before_asym a b :
  comes_before a b = true → comes_before b a = false.
Proof.
  intros H%comes_before_spec.
  destruct (comes_before b a) eqn:E; [|done].
  apply comes_before_spec in E. lia.
Qed.

Lemma comes_before_trans a b c :
  comes_before a b = true → comes_before b c = true → comes_before a c = true.
Proof. rewrite !comes_before_spec. lia. Qed.

Lemma comes_before_total a b :
  key a ≠ key b → comes_before a b = false → comes_before b a = true.
Proof.
  unfold key. intros Hk Hab. apply comes_before_spec.
  destruct (decide (freq b < freq a)); [by left|right].
  assert (¬ (freq a < freq b ∨ freq a = freq b ∧ char_ascii a < char_ascii b)) as Hn.
  { rewrite <- comes_before_spec. congruence. }
  assert (freq a = freq b) as Hf by lia.
  split; [done|].
  destruct (decide (char_ascii a = char_ascii b)) as [Hc|Hc]; [|lia].
  exfalso. apply Hk. by rewrite Hf, Hc.
Qed.

Global Instance before_trans : Transitive before.
Proof. intros a b c. apply comes_before_trans. Qed.

Lemma adjacent_sorted_tail a l : adjacent_sorted (a :: l) → adjacent_sorted l.
Proof. intros H x b c Hb Hc. by apply (H (S x) b c). Qed.

Lemma adjacent_sorted_Sorted l : adjacent_sorted l → Sorted before l.
Proof.
  induction l as [|a l IH]; intros H; constructor.
  - eapply IH, adjacent_sorted_tail, H.
  - destruct l as [|b l]; constructor. by apply (H 0%nat a b).
Qed.

Lemma adjacent_sorted_StronglySorted l :
  adjacent_sorted l → StronglySorted before l.
Proof. intros H. apply Sorted_StronglySorted; [apply _|]. by apply adjacent_sorted_Sorted. Qed.


(** ** huff_helper *)

Lemma count_before_app a l1 l2 :
  count_before a (l1 ++ l2) = (count_before a l1 + count_before a l2)%nat.
Proof. induction l1 as [|b l1 IH]; simpl; [done|]. rewrite IH. lia. Qed.

Lemma count_before_le a l : (count_before a l ≤ length l)%nat.
Proof. induction l as [|b l IH]; simpl; [lia|]. destruct (comes_before b a); lia. Qed.


Lemma inversions_swap pre a b post :
  comes_before b a = true →
  inversions (pre ++ a :: b :: post) = S (inversions (pre ++ b :: a :: post)).
Proof.
  intros Hba. induction pre as [|c pre IH]; simpl.
  - rewrite Hba, (comes_before_asym _ _ Hba). lia.
  - rewrite IH, !count_before_app. simpl. lia.
Qed.

(** The two assignments of the swap, on a list split around the pair. *)
Lemma swap_adjacent (l : list HuffmanNode) x a b :
  l !! x = Some a → l !! (x + 1)%nat = Some b →
  ∃ pre post, l = pre ++ a :: b :: post ∧
    <[(x + 1)%nat := a]> (<[x := b]> l) = pre ++ b :: a :: post.
Proof.
  revert x. induction l as [|c l IH]; intros x Ha Hb; [done|].
  destruct x as [|x]; simpl in *.
  - destruct l as [|d l]; simplify_eq/=. by exists [], l.
  - destruct (IH x Ha Hb) as (pre & post & -> & Hsw).
    exists (c :: pre), post. split; [done|]. simpl. by rewrite Hsw.
Qed.

Lemma swap_perm (pre post : list HuffmanNode) a b :
  pre ++ a :: b :: post ≡ₚ pre ++ b :: a :: post.
Proof. apply Permutation_app_head, perm_swap. Qed.

(** A list with no adjacent pair out of order goes through the loop
    untouched. *)
Lemma huff_for_sorted rec xs l :
  adjacent_sorted l → (∀ x, x ∈ xs → (x + 1 < length l)%nat) →
  huff_for rec xs l = Done l.
Proof.
  intros Hs. induction xs as [|x xs IH]; intros Hr; simpl; [done|].
  assert (x + 1 < length l)%nat as Hx by (apply Hr; left).
  destruct (lookup_lt_is_Some_2 l x) as [a Ha]; [lia|].
  destruct (lookup_lt_is_Some_2 l (x + 1)) as [b Hb]; [lia|].
  rewrite Ha, Hb. rewrite (Hs x a b); [|done|by rewrite <- Nat.add_1_r].
  apply IH. intros y Hy. apply Hr. by right.
Qed.

Section HuffFor.
Variable rec : list HuffmanNode → outcome (list HuffmanNode).
Variable bound : nat.
Hypothesis rec_sorts : ∀ l,
  NoDup (key <$> l) → (inversions l < bound)%nat →
  ∃ l', rec l = Done l' ∧ l ≡ₚ l' ∧ adjacent_sorted l'.

Lemma huff_for_sorts xs l :
  NoDup (key <$> l) → (inversions l ≤ bound)%nat →
  (∀ x, x ∈ xs → (x + 1 < length l)%nat) →
  ∃ l', huff_for rec xs l = Done l' ∧ l ≡ₚ l' ∧
    (adjacent_sorted l' ∨
     (l' = l ∧ ∀ x a b, x ∈ xs → l !! x = Some a → l !! S x = Some b →
                        comes_before a b = true)).
Proof.
  intros Hnd Hinv. induction xs as [|x xs IH]; intros Hr; simpl.
  { exists l. split_and!; [done..|]. right. split; [done|]. intros ??? []%elem_of_nil. }
  assert (x + 1 < length l)%nat as Hx by (apply Hr; left).
  destruct (lookup_lt_is_Some_2 l x) as [a Ha]; [lia|].
  destruct (lookup_lt_is_Some_2 l (x + 1)) as [b Hb]; [lia|].
  rewrite Ha, Hb. destruct (comes_before a b) eqn:Hab.
  - destruct IH as (l' & Hl' & Hp & Hcase).
    { intros y Hy. apply Hr. by right. }
    exists l'. split_and!; [done..|].
    destruct Hcase as [?|[-> Hord]]; [by left|right].
    split; [done|]. intros y a' b' [->|Hy]%elem_of_cons Ha' Hb'.
    + rewrite <- Nat.add_1_r in Hb'. by simplify_eq.
    + by apply (Hord y).
  - destruct (swap_adjacent l x a b Ha Hb) as (pre & post & Hl & ->).
    assert (key a ≠ key b) as Hk.
    { subst l. rewrite fmap_app, !fmap_cons in Hnd.
      apply NoDup_app in Hnd as (_ & _ & Hnd).
      apply NoDup_cons in Hnd as [Hnd _].
      intros E. apply Hnd. rewrite E. left. }
    pose proof (comes_before_total a b Hk Hab) as Hba.
    destruct (rec_sorts (pre ++ b :: a :: post)) as (l1 & -> & Hp1 & Hs1).
    { rewrite <- (swap_perm pre post a b). by subst l. }
    { subst l. rewrite (inversions_swap pre a b post Hba) in Hinv. lia. }
    simpl. rewrite huff_for_sorted; [|done|].
    + exists l1. split_and!; [done| |by left].
      subst l. by rewrite <- Hp1, swap_perm.
    + intros y Hy. rewrite <- Hp1, <- swap_perm, <- Hl. apply Hr. by right.
Qed.
End HuffFor.

Lemma huff_helper_sorts fuel l :
  NoDup (key <$> l) → (inversions l < fuel)%nat →
  ∃ l', huff_helper fuel l = Done l' ∧ l ≡ₚ l' ∧ adjacent_sorted l'.
Proof.
  revert l. induction fuel as [|fuel IH]; intros l Hnd Hinv; [lia|]. simpl.
  destruct (huff_for_sorts (huff_helper fuel) fuel IH
              (seq 0 (length l - 1)) l Hnd) as (l' & Hl' & Hp & Hcase).
  { lia. }
  { intros x [_ Hx]%elem_of_seq. lia. }
  exists l'. split_and!; [done..|].
  destruct Hcase as [?|[-> Hord]]; [done|].
  intros x a b Ha Hb. apply (Hord x); [|done..].
  apply elem_of_seq. apply lookup_lt_Some in Hb. lia.
Qed.

(** More budget never changes a result. *)
Lemma huff_for_mono (rec rec' : list HuffmanNode → outcome (list HuffmanNode)) xs :
  (∀ l r, rec l = Done r → rec' l = Done r) →
  ∀ l r, huff_for rec xs l = Done r → huff_for rec' xs l = Done r.
Proof.
  intros Hrec. induction xs as [|x xs IH]; intros l r; simpl; [done|].
  destruct (l !! x) as [a|]; [|done].
  destruct (l !! (x + 1)%nat) as [b|]; [|done].
  destruct (comes_before a b); [apply IH|].
  destruct (rec _) as [l1| |] eqn:E; simpl; [|done..].
  rewrite (Hrec _ _ E). simpl. apply IH.
Qed.

Lemma huff_helper_mono fuel fuel' l r :
  (fuel ≤ fuel')%nat → huff_helper fuel l = Done r → huff_helper fuel' l = Done r.
Proof.
  revert fuel' l r. induction fuel as [|fuel IH]; intros fuel' l r Hle; [done|].
  destruct fuel' as [|fuel']; [lia|]. simpl.
  apply huff_for_mono. intros l1 r1. apply IH. lia.
Qed.

(** Whatever huff_helper returns is the argument rearranged with no
    adjacent pair out of order. *)
Lemma huff_for_returns (rec : list HuffmanNode → outcome (list HuffmanNode)) xs :
  (∀ l r, rec l = Done r → l ≡ₚ r ∧ adjacent_sorted r) →
  ∀ l r, (∀ x, x ∈ xs → (x + 1 < length l)%nat) →
    huff_for rec xs l = Done r →
    l ≡ₚ r ∧ (adjacent_sorted r ∨
      (r = l ∧ ∀ x a b, x ∈ xs → l !! x = Some a → l !! S x = Some b →
                        comes_before a b = true)).
Proof.
  intros Hrec. induction xs as [|x xs IH]; intros l r Hr; simpl.
  { intros [= <-]. split; [done|]. right. split; [done|]. intros ??? []%elem_of_nil. }
  destruct (l !! x) as [a|] eqn:Ha; [|done].
  destruct (l !! (x + 1)%nat) as [b|] eqn:Hb; [|done].
  destruct (comes_before a b) eqn:Hab.
  - intros H. apply IH in H as [Hp Hcase]; [|intros y Hy; apply Hr; by right].
    split; [done|]. destruct Hcase as [?|[-> Hord]]; [by left|right].
    split; [done|]. intros y a' b' [->|Hy]%elem_of_cons Ha' Hb'.
    + rewrite <- Nat.add_1_r in Hb'. by simplify_eq.
    + by apply (Hord y).
  - destruct (swap_adjacent l x a b Ha Hb) as (pre & post & Hl & ->).
    destruct (rec _) as [l1| |] eqn:E; simpl; [|done..].
    destruct (Hrec _ _ E) as [Hp1 Hs1].
    rewrite huff_for_sorted; [|done|].
    + intros [= <-]. split; [|by left]. by rewrite Hl, swap_perm.
    + intros y Hy. rewrite <- Hp1, <- swap_perm, <- Hl. apply Hr. by right.
Qed.

Lemma huff_helper_returns fuel l r :
  huff_helper fuel l = Done r → l ≡ₚ r ∧ adjacent_sorted r.
Proof.
  revert l r. induction fuel as [|fuel IH]; intros l r; [done|]. simpl.
  intros H. apply (huff_for_returns _ _ IH) in H as [Hp Hcase].
  - split; [done|]. destruct Hcase as [?|[-> Hord]]; [done|].
    intros x a b Ha Hb. apply (Hord x); [|done..].
    apply elem_of_seq. apply lookup_lt_Some in Hb. lia.
  - intros x [_ Hx]%elem_of_seq. lia.
Qed.

Lemma StronglySorted_NoDup_key l : StronglySorted before l → NoDup (key <$> l).
Proof.
  induction 1 as [|a l Hs IH Hall]; simpl; constructor; [|done].
  intros (b & Hk & Hb)%list_elem_of_fmap.
  rewrite Forall_forall in Hall. specialize (Hall b Hb).
  apply comes_before_spec in Hall. unfold key in Hk. simplify_eq. lia.
Qed.

(** The head of a sorted list is its lowest node, the second its lowest
    but one. *)
Lemma sorted_head_lowest a l :
  adjacent_sorted (a :: l) → Forall (before a) l.
Proof.
  intros H%adjacent_sorted_StronglySorted. by apply StronglySorted_inv in H as [_ ?].
Qed.

(** ** Trees *)

Lemma sum_app l1 l2 : sum (l1 ++ l2) = sum l1 + sum l2.
Proof. unfold sum. induction l1 as [|x l1 IH]; simpl; lia. Qed.

Lemma sum_perm l1 l2 : l1 ≡ₚ l2 → sum l1 = sum l2.
Proof. unfold sum. induction 1; simpl; lia. Qed.

Lemma is_minimum_app a b l1 l2 :
  is_minimum a l1 → is_minimum b l2 → is_minimum (Z.min a b) (l1 ++ l2).
Proof.
  intros [Ha Hla] [Hb Hlb]. split.
  - apply elem_of_app. destruct (Z.min_spec a b) as [[_ ->]|[_ ->]]; auto.
  - apply Forall_app. split; (eapply Forall_impl; [eassumption|]); simpl; lia.
Qed.


Lemma leaves_node c f l r :
  leaves (mkHuffmanNode c f (Some l) (Some r)) = leaves l ++ leaves r.
Proof. done. Qed.

Lemma tree_inv_root n : tree_inv n → node_ok n.
Proof. destruct n. intros H. by apply Forall_cons in H as [? _]. Qed.

Lemma tree_inv_leaf c f : tree_inv (leaf c f).
Proof.
  repeat constructor; simpl; unfold sum; simpl; [lia|lia].
Qed.

Lemma tree_inv_node c f l r :
  tree_inv l → tree_inv r →
  f = freq l + freq r → c = Z.min (char_ascii l) (char_ascii r) →
  tree_inv (mkHuffmanNode c f (Some l) (Some r)).
Proof.
  intros Hl Hr -> ->. unfold tree_inv. simpl. constructor.
  - destruct (tree_inv_root _ Hl) as [Hfl Hml], (tree_inv_root _ Hr) as [Hfr Hmr].
    split; rewrite leaves_node, fmap_app; simpl.
    + rewrite sum_app. lia.
    + by apply is_minimum_app.
  - apply Forall_app. by split.
Qed.

(** What combine returns, by the order of its arguments. *)
Lemma combine_cases a b :
  combine a b = mkHuffmanNode (Z.min (char_ascii a) (char_ascii b))
                  (freq a + freq b) (Some a) (Some b) ∧
    (comes_before a b = true ∨ (freq a < freq b))
  ∨
  combine a b = mkHuffmanNode (Z.min (char_ascii a) (char_ascii b))
                  (freq a + freq b) (Some b) (Some a) ∧
    comes_before a b = false.
Proof.
  unfold combine.
  destruct (comes_before a b) eqn:Hcb.
  - left. apply comes_before_spec in Hcb. split; [|by left].
    destruct (Z.ltb_spec (freq a) (freq b)), (Z.eqb_spec (freq a) (freq b)),
      (Z.ltb_spec (char_ascii a) (char_ascii b)); f_equal; lia.
  - assert (¬ (freq a < freq b ∨ freq a = freq b ∧ char_ascii a < char_ascii b)) as Hn.
    { rewrite <- comes_before_spec. congruence. }
    right. split; [|done].
    destruct (Z.ltb_spec (freq a) (freq b)), (Z.eqb_spec (freq a) (freq b)),
      (Z.ltb_spec (char_ascii a) (char_ascii b)); f_equal; lia.
Qed.

Lemma combine_shape a b :
  ∃ lo hi, combine a b = mkHuffmanNode (Z.min (char_ascii a) (char_ascii b))
                           (freq a + freq b) (Some lo) (Some hi) ∧
    ((lo = a ∧ hi = b) ∨ (lo = b ∧ hi = a)).
Proof.
  destruct (combine_cases a b) as [[-> _]|[-> _]]; eauto 10.
Qed.

Lemma combine_full a b : full a → full b → full (combine a b).
Proof.
  intros Ha Hb. destruct (combine_shape a b) as (lo & hi & -> & [[-> ->]|[-> ->]]);
    simpl; auto.
Qed.

Lemma combine_tree_inv a b : tree_inv a → tree_inv b → tree_inv (combine a b).
Proof.
  intros Ha Hb. destruct (combine_shape a b) as (lo & hi & -> & [[-> ->]|[-> ->]]).
  - by apply tree_inv_node.
  - apply tree_inv_node; [done|done|lia|lia].
Qed.

Lemma combine_leaves a b : leaves (combine a b) ≡ₚ leaves a ++ leaves b.
Proof.
  destruct (combine_shape a b) as (lo & hi & -> & [[-> ->]|[-> ->]]);
    rewrite leaves_node; [done|apply Permutation_app_comm].
Qed.

(** ** The working list of create_huff_tree *)

Lemma insert_by_freq_perm x l : insert_by_freq x l ≡ₚ x :: l.
Proof.
  induction l as [|y l IH]; simpl; [done|].
  destruct (freq x <=? freq y); [done|]. rewrite IH. apply perm_swap.
Qed.

Lemma sort_by_freq_perm l : sort_by_freq l ≡ₚ l.
Proof.
  induction l as [|x l IH]; simpl; [done|].
  by rewrite insert_by_freq_perm, IH.
Qed.

Lemma insert_by_freq_before a l :
  StronglySorted before l → Forall (id_before a) l →
  StronglySorted before (insert_by_freq a l).
Proof.
  induction 1 as [|b l Hs IH Hall]; intros Hid; simpl.
  { repeat constructor. }
  apply Forall_cons in Hid as [Hab Hid]. unfold id_before in Hab.
  destruct (Z.leb_spec (freq a) (freq b)) as [Hle|Hgt].
  - assert (before a b) as Hb by (apply comes_before_spec; lia).
    constructor; [by constructor|]. constructor; [done|].
    eapply Forall_impl; [exact Hall|]. intros c Hc. by trans b.
  - constructor; [by apply IH|].
    rewrite insert_by_freq_perm. constructor; [|done].
    apply comes_before_spec. lia.
Qed.

(** Sorting the leaves by weight leaves them ordered by comes_before. *)
Lemma sort_by_freq_leaves l :
  StronglySorted id_before l → StronglySorted before (sort_by_freq l).
Proof.
  induction 1 as [|a l Hs IH Hall]; simpl; [constructor|].
  apply insert_by_freq_before; [done|]. by rewrite sort_by_freq_perm.
Qed.

Lemma insert_by_freq_lowest a l :
  Forall (before a) l → insert_by_freq a l = a :: l.
Proof.
  destruct 1 as [|b l Hab _]; simpl; [done|].
  apply comes_before_spec in Hab.
  destruct (Z.leb_spec (freq a) (freq b)); [done|lia].
Qed.

(** Sorting a sorted list with one node appended puts that node somewhere
    into the list and moves nothing else. *)
Lemma sort_by_freq_snoc x l :
  StronglySorted before l →
  ∃ pre post, l = pre ++ post ∧ sort_by_freq (l ++ [x]) = pre ++ x :: post.
Proof.
  unfold sort_by_freq. rewrite foldr_app. simpl.
  induction 1 as [|a l Hs IH Hall]; simpl.
  { by exists [], []. }
  destruct IH as (pre & post & -> & ->).
  destruct pre as [|p pre]; simpl in *.
  - destruct (Z.leb_spec (freq a) (freq x)).
    + by exists [a], post.
    + exists [], (a :: post). by rewrite insert_by_freq_lowest.
  - apply Forall_cons in Hall as [Hap _]. apply comes_before_spec in Hap.
    destruct (Z.leb_spec (freq a) (freq p)); [|lia].
    by exists (a :: p :: pre), post.
Qed.

Lemma count_before_sorted a l : Forall (before a) l → count_before a l = 0%nat.
Proof.
  induction 1 as [|b l Hab _ IH]; simpl; [done|].
  by rewrite (comes_before_asym _ _ Hab), IH.
Qed.

Lemma inversions_sorted l : StronglySorted before l → inversions l = 0%nat.
Proof.
  induction 1 as [|a l Hs IH Hall]; simpl; [done|].
  by rewrite count_before_sorted, IH.
Qed.

Lemma inversions_one_inserted x pre post :
  StronglySorted before (pre ++ post) →
  (inversions (pre ++ x :: post) ≤ length (pre ++ post))%nat.
Proof.
  induction pre as [|a pre IH]; simpl; intros Hs.
  - rewrite (inversions_sorted _ Hs). pose proof (count_before_le x post). lia.
  - apply StronglySorted_inv in Hs as [Hs Hall].
    apply Forall_app in Hall as [Hpre Hpost].
    rewrite count_before_app. simpl.
    rewrite (count_before_sorted _ _ Hpre), (count_before_sorted _ _ Hpost).
    specialize (IH Hs). destruct (comes_before x a); lia.
Qed.

(** After a new node is appended to a sorted working list and the list is
    sorted by weight, huff_helper needs no more levels of recursion than
    the list has nodes. *)
Lemma inversions_sort_snoc x l :
  StronglySorted before l →
  (inversions (sort_by_freq (l ++ [x])) ≤ length l)%nat.
Proof.
  intros Hs. destruct (sort_by_freq_snoc x l Hs) as (pre & post & -> & ->).
  by apply inversions_one_inserted.
Qed.

Lemma merge_loop_step fuel a b rest :
  merge_loop (S fuel) (a :: b :: rest) =
  huff_helper (S fuel) (sort_by_freq (rest ++ [combine a b])) ≫= merge_loop fuel.
Proof. done. Qed.

Section Forest.
(** The leaves the construction started from, with distinct symbol ids. *)
Variable L : list (Z * Z).
Hypothesis L_nodup : NoDup L.*1.


Lemma forest_inv_perm ws ws' : ws ≡ₚ ws' → forest_inv L ws → forest_inv L ws'.
Proof. intros Hp [H1 H2 H3]. split; by rewrite <- Hp. Qed.

Lemma forest_inv_step a b rest :
  forest_inv L (a :: b :: rest) → forest_inv L (combine a b :: rest).
Proof.
  intros [H1 H2 H3].
  apply Forall_cons in H1 as [Ha1 [Hb1 Hr1]%Forall_cons].
  apply Forall_cons in H2 as [Ha2 [Hb2 Hr2]%Forall_cons].
  split.
  - constructor; [by apply combine_full|done].
  - constructor; [by apply combine_tree_inv|done].
  - rewrite <- H3. rewrite !bind_cons, combine_leaves. by rewrite (assoc_L (++)).
Qed.

Lemma forest_inv_ids ws : forest_inv L ws → NoDup (char_ascii <$> ws).
Proof.
  intros [_ H2 H3].
  assert (NoDup (ws ≫= leaves).*1) as Hnd by by rewrite H3.
  clear H3. induction ws as [|w ws IH]; simpl; [constructor|].
  apply Forall_cons in H2 as [Hw Hws].
  rewrite bind_cons, fmap_app in Hnd. apply NoDup_app in Hnd as (_ & Hdisj & Hnd).
  constructor; [|by apply IH].
  intros (v & Hv & Hin)%list_elem_of_fmap.
  destruct (tree_inv_root _ Hw) as [_ [Hcw _]].
  apply (Hdisj _ Hcw). rewrite Hv.
  rewrite Forall_forall in Hws.
  destruct (tree_inv_root _ (Hws v Hin)) as [_ [Hcv _]].
  apply list_elem_of_fmap in Hcv as (p & -> & Hp).
  apply list_elem_of_fmap. exists p. split; [done|].
  apply list_elem_of_bind. eauto.
Qed.

Lemma forest_inv_keys ws : forest_inv L ws → NoDup (key <$> ws).
Proof.
  intros H%forest_inv_ids. apply (NoDup_fmap_1 snd).
  by rewrite <- list_fmap_compose.
Qed.

(** A working list of [n + 1] nodes is merged into one tree within
    [n + 1] rounds, and within as many levels of recursion of
    huff_helper. *)
Lemma merge_loop_builds n : ∀ ws,
  length ws = S n → forest_inv L ws → adjacent_sorted ws →
  ∃ root,
    (∀ fuel, (S n ≤ fuel)%nat → merge_loop fuel ws = Done [root]) ∧
    full root ∧ tree_inv root ∧ leaves root ≡ₚ L ∧ builds ws root.
Proof.
  induction n as [|n IH]; intros ws Hlen Hinv Hsorted.
  - destruct ws as [|root [|??]]; simplify_eq/=. exists root.
    destruct Hinv as [H1 H2 H3].
    apply Forall_cons in H1 as [? _]. apply Forall_cons in H2 as [? _].
    rewrite bind_singleton in H3.
    split_and!; [|done..|constructor].
    intros [|fuel] Hf; [lia|done].
  - destruct ws as [|a [|b rest]]; simplify_eq/=.
    set (l3 := sort_by_freq (rest ++ [combine a b])).
    assert (l3 ≡ₚ combine a b :: rest) as Hp3.
    { unfold l3. rewrite sort_by_freq_perm. by rewrite Permutation_app_comm. }
    assert (forest_inv L l3) as Hinv3.
    { eapply forest_inv_perm; [symmetry; apply Hp3|]. by apply forest_inv_step. }
    assert (inversions l3 ≤ length rest)%nat as Hinv_le.
    { apply inversions_sort_snoc, adjacent_sorted_StronglySorted.
      by eapply adjacent_sorted_tail, adjacent_sorted_tail. }
    destruct (huff_helper_sorts (S (inversions l3)) l3) as (l4 & Hl4 & Hp4 & Hs4).
    { by apply forest_inv_keys. }
    { lia. }
    destruct (IH l4) as (root & Hloop & Hfull & Htinv & Hleaves & Hbuilds).
    { rewrite <- Hp4, Hp3. simpl. lia. }
    { by eapply forest_inv_perm. }
    { done. }
    exists root. split_and!; [|done..|].
    + intros [|fuel] Hf; [lia|].
      rewrite merge_loop_step. fold l3.
      assert (S (inversions l3) ≤ S fuel)%nat as Hle by lia.
      rewrite (huff_helper_mono _ (S fuel) _ _ Hle Hl4).
      simpl. apply Hloop. lia.
    + eapply builds_step; [|exact Hbuilds].
      eapply (merge_step_intro _ _ a b rest); [done| | |].
      * by apply sorted_head_lowest.
      * by eapply sorted_head_lowest, adjacent_sorted_tail.
      * by rewrite <- Hp4.
Qed.
End Forest.

(** ** The leaves of a frequency table *)

Lemma leaf_loop_spec freqs i acc :
  leaf_loop freqs i acc = acc ++ (leaf_of <$> nonzero_from i freqs).
Proof.
  revert i acc. induction freqs as [|f freqs IH]; intros i acc; simpl.
  - by rewrite (right_id_L [] (++)).
  - rewrite IH. destruct (f =? 0); simpl; [done|].
    by rewrite <- (assoc_L (++)).
Qed.

Lemma elem_of_nonzero_from j g i freqs :
  (j, g) ∈ nonzero_from i freqs ↔
  ∃ k : nat, j = i + Z.of_nat k ∧ freqs !! k = Some g ∧ g ≠ 0.
Proof.
  revert i. induction freqs as [|f freqs IH]; intros i; simpl.
  - split; [intros []%elem_of_nil|]. by intros (k & _ & ? & _).
  - rewrite elem_of_app, IH. split.
    + intros [H|(k & -> & Hk & Hg)].
      * destruct (Z.eqb_spec f 0); [by apply elem_of_nil in H|].
        apply list_elem_of_singleton in H. simplify_eq.
        exists 0%nat. split_and!; [lia|done..].
      * exists (S k). split_and!; [lia|done..].
    + intros ([|k] & -> & Hk & Hg); simplify_eq/=.
      * left. destruct (Z.eqb_spec g 0); [done|].
        apply list_elem_of_singleton. f_equal. lia.
      * right. exists k. split_and!; [lia|done..].
Qed.

Lemma elem_of_nonzero_pairs j g freqs :
  (j, g) ∈ nonzero_pairs freqs ↔
  ∃ k : nat, j = Z.of_nat k ∧ freqs !! k = Some g ∧ g ≠ 0.
Proof. unfold nonzero_pairs. by rewrite elem_of_nonzero_from. Qed.

Lemma nonzero_from_NoDup i freqs : NoDup (nonzero_from i freqs).*1.
Proof.
  revert i. induction freqs as [|f freqs IH]; intros i; simpl; [constructor|].
  destruct (f =? 0); simpl; [apply IH|]. constructor; [|apply IH].
  intros ([j g] & Hj & Hin)%list_elem_of_fmap. simpl in Hj. subst j.
  apply elem_of_nonzero_from in Hin as (k & ? & _). lia.
Qed.

Lemma nonzero_from_sorted i freqs : StronglySorted Z.lt (nonzero_from i freqs).*1.
Proof.
  revert i. induction freqs as [|f freqs IH]; intros i; simpl; [constructor|].
  destruct (f =? 0); simpl; [apply IH|]. constructor; [apply IH|].
  apply Forall_forall. intros j ([j' g] & -> & Hin)%list_elem_of_fmap.
  apply elem_of_nonzero_from in Hin as (k & -> & _). simpl. lia.
Qed.

Lemma nonzero_from_sum i freqs : sum (nonzero_from i freqs).*2 = sum freqs.
Proof.
  revert i. induction freqs as [|f freqs IH]; intros i; simpl; [done|].
  rewrite fmap_app, sum_app, IH.
  destruct (Z.eqb_spec f 0); unfold sum; simpl; lia.
Qed.

Lemma nonzero_from_length i freqs :
  (length (nonzero_from i freqs) ≤ length freqs)%nat.
Proof.
  revert i. induction freqs as [|f freqs IH]; intros i; simpl; [lia|].
  rewrite length_app. specialize (IH (i + 1)). destruct (f =? 0); simpl; lia.
Qed.

Lemma sum_nonneg l : Forall (Z.le 0) l → 0 ≤ sum l.
Proof. unfold sum. induction 1; simpl; lia. Qed.

Lemma sum_zero_iff l : Forall (Z.le 0) l → sum l = 0 ↔ Forall (λ f, f = 0) l.
Proof.
  induction 1 as [|x l Hx Hl IH]; simpl; [by split|].
  pose proof (sum_nonneg l Hl). rewrite Forall_cons, <- IH.
  unfold sum in *. simpl. lia.
Qed.

Lemma leaf_nodes_forest_inv freqs :
  forest_inv (nonzero_pairs freqs) (leaf_nodes freqs).
Proof.
  unfold leaf_nodes. induction (nonzero_pairs freqs) as [|[c f] L IH]; simpl.
  - by split.
  - destruct IH as [H1 H2 H3]. split.
    + by constructor.
    + constructor; [apply tree_inv_leaf|done].
    + rewrite bind_cons. simpl. by constructor.
Qed.

Lemma merge_step_perm ws1 ws2 ws' : ws1 ≡ₚ ws2 → merge_step ws1 ws' → merge_step ws2 ws'.
Proof.
  intros Hp Hs. destruct Hs as [ws ws' x y rest H1 H2 H3 H4].
  eapply merge_step_intro; [|done..]. by rewrite <- Hp.
Qed.

Lemma builds_perm ws1 ws2 r : ws1 ≡ₚ ws2 → builds ws1 r → builds ws2 r.
Proof.
  intros Hp Hb. inversion Hb as [r'|ws ws' r' Hs Hb']; subst.
  - apply Permutation_singleton_l in Hp. subst ws2. constructor.
  - eapply builds_step; [|done]. by eapply merge_step_perm.
Qed.

(** The steps leave no choice: the lowest node of a multiset is unique. *)
Lemma lowest_unique x l x' l' :
  x :: l ≡ₚ x' :: l' → lowest x l → lowest x' l' → x = x' ∧ l ≡ₚ l'.
Proof.
  intros Hp Hx Hx'. unfold lowest in *. rewrite Forall_forall in Hx, Hx'.
  assert (x = x') as <-.
  { assert (x ∈ x' :: l') as Hin by (rewrite <- Hp; left).
    apply elem_of_cons in Hin as [?|Hin]; [done|].
    assert (x' ∈ x :: l) as Hin' by (rewrite Hp; left).
    apply elem_of_cons in Hin' as [?|Hin']; [done|].
    pose proof (comes_before_asym _ _ (Hx _ Hin')) as Hn.
    pose proof (Hx' _ Hin) as Hy. unfold before in Hy. congruence. }
  split; [done|]. by eapply Permutation_cons_inv.
Qed.

Lemma merge_step_deterministic ws ws1 ws2 :
  merge_step ws ws1 → merge_step ws ws2 → ws1 ≡ₚ ws2.
Proof.
  intros [? ? x y rest Hp Hx Hy Hp1] H2.
  inversion H2 as [? ? x' y' rest' Hp' Hx' Hy' Hp2]; subst.
  destruct (lowest_unique x (y :: rest) x' (y' :: rest')) as [<- Hrest];
    [by rewrite <- Hp, <- Hp'|done..|].
  destruct (lowest_unique y rest y' rest' Hrest Hy Hy') as [<- Hrest'].
  by rewrite Hp1, Hp2, Hrest'.
Qed.

Lemma merge_step_length ws ws' : merge_step ws ws' → (2 ≤ length ws)%nat.
Proof. intros [? ? x y rest Hp _ _ _]. rewrite Hp. simpl. lia. Qed.

Lemma builds_deterministic ws r :
  builds ws r → ∀ ws' r', ws ≡ₚ ws' → builds ws' r' → r = r'.
Proof.
  induction 1 as [r|ws ws1 r Hstep Hb IH]; intros ws' r' Hp Hb'.
  - apply Permutation_singleton_l in Hp. subst ws'.
    inversion Hb' as [|? ? ? Hstep' _]; subst; [done|].
    apply merge_step_length in Hstep'. simpl in Hstep'. lia.
  - inversion Hb' as [|? ws2 ? Hstep' Hb2]; subst.
    + apply merge_step_length in Hstep. rewrite Hp in Hstep. simpl in Hstep. lia.
    + eapply IH; [|exact Hb2].
      eapply merge_step_deterministic; [exact Hstep|].
      eapply merge_step_perm; [symmetry; exact Hp|done].
Qed.


Lemma leaf_nodes_sorted freqs : StronglySorted id_before (leaf_nodes freqs).
Proof.
  unfold leaf_nodes, nonzero_pairs. pose proof (nonzero_from_sorted 0 freqs) as Hs.
  induction (nonzero_from 0 freqs) as [|p ps IH]; [constructor|].
  rewrite fmap_cons in Hs. apply StronglySorted_inv in Hs as [Hs Hall].
  rewrite fmap_cons. constructor; [by apply IH|].
  rewrite Forall_fmap in Hall. rewrite Forall_fmap.
  eapply Forall_impl; [exact Hall|]. by intros [??].
Qed.

(** The tree create_huff_tree returns when some count is not zero; one
    round, and one level of recursion of huff_helper, per entry of the
    table are enough. *)
Lemma create_huff_tree_builds freqs :
  sum freqs ≠ 0 →
  ∃ root,
    (∀ fuel, (length freqs ≤ fuel)%nat →
       create_huff_tree fuel freqs = Done (Some root)) ∧
    full root ∧ tree_inv root ∧ leaves root ≡ₚ nonzero_pairs freqs ∧
    builds (leaf_nodes freqs) root.
Proof.
  intros Hsum.
  pose proof (leaf_nodes_forest_inv freqs) as Hinv.
  pose proof (nonzero_from_NoDup 0 freqs) as Hnd. fold (nonzero_pairs freqs) in Hnd.
  set (ws0 := sort_by_freq (leaf_loop freqs 0 [])).
  assert (ws0 ≡ₚ leaf_nodes freqs) as Hp0.
  { unfold ws0. by rewrite sort_by_freq_perm, leaf_loop_spec. }
  assert (forest_inv (nonzero_pairs freqs) ws0) as Hinv0.
  { eapply forest_inv_perm; [symmetry; apply Hp0|done]. }
  assert (inversions ws0 = 0%nat) as Hinv_0.
  { apply inversions_sorted. unfold ws0. rewrite leaf_loop_spec. simpl.
    apply sort_by_freq_leaves, leaf_nodes_sorted. }
  destruct (huff_helper_sorts 1 ws0) as (ws1 & Hws1 & Hp1 & Hs1).
  { by eapply forest_inv_keys. }
  { lia. }
  assert (length ws0 = length (nonzero_pairs freqs)) as Hlen0.
  { rewrite Hp0. unfold leaf_nodes. by rewrite length_fmap. }
  pose proof (nonzero_from_length 0 freqs) as Hlen. fold (nonzero_pairs freqs) in Hlen.
  destruct (length ws0) as [|n] eqn:Hn.
  { exfalso. apply Hsum. rewrite <- (nonzero_from_sum 0 freqs).
    fold (nonzero_pairs freqs). symmetry in Hlen0.
    apply nil_length_inv in Hlen0 as ->. done. }
  destruct (merge_loop_builds (nonzero_pairs freqs) Hnd n ws1)
    as (root & Hloop & Hfull & Htinv & Hleaves & Hbuilds).
  { by rewrite <- Hp1. }
  { by eapply forest_inv_perm. }
  { done. }
  exists root. split_and!; [|done..|].
  - intros fuel Hf. unfold create_huff_tree.
    destruct (Z.eqb_spec (sum freqs) 0); [done|]. fold ws0.
    assert (1 ≤ fuel)%nat as Hle by lia.
    rewrite (huff_helper_mono _ fuel _ _ Hle Hws1). simpl.
    rewrite Hloop; [done|lia].
  - eapply builds_perm; [|exact Hbuilds]. by rewrite <- Hp1.
Qed.

(** ** Codes *)

Lemma string_app_cons c s t : String c s +:+ t = String c (s +:+ t).
Proof. done. Qed.

Lemma string_app_assoc s t u : (s +:+ t) +:+ u = s +:+ (t +:+ u).
Proof. induction s as [|c s IH]; [done|]. by rewrite !string_app_cons, IH. Qed.

Lemma string_app_nil_r s : s +:+ "" = s.
Proof. induction s as [|c s IH]; [done|]. by rewrite string_app_cons, IH. Qed.

Lemma set_codes_length ps pl : length (foldl set_code pl ps) = length pl.
Proof.
  revert pl. induction ps as [|p ps IH]; intros pl; simpl; [done|].
  rewrite IH. apply length_insert.
Qed.

Lemma setitem_in_range {A} (l : list A) i v :
  0 ≤ i < Z.of_nat (length l) → setitem l i v = Done (<[Z.to_nat i := v]> l).
Proof.
  intros Hi. unfold setitem, py_index.
  destruct (Z.leb_spec 0 i); [|lia]. destruct (Z.ltb_spec i (Z.of_nat (length l))); [done|lia].
Qed.

Lemma getitem_in_range {A} (l : list A) i :
  0 ≤ i < Z.of_nat (length l) →
  ∃ x, l !! Z.to_nat i = Some x ∧ getitem l i = Done x.
Proof.
  intros Hi. unfold getitem, py_index.
  destruct (Z.leb_spec 0 i); [|lia]. destruct (Z.ltb_spec i (Z.of_nat (length l))); [|lia].
  destruct (lookup_lt_is_Some_2 l (Z.to_nat i)) as [x Hx]; [lia|].
  exists x. by rewrite Hx.
Qed.

Lemma code_paths_ids n : ∀ code, (code_paths n code).*1 = (leaves n).*1.
Proof.
  induction n as [c f l r IHl IHr] using HuffmanNode_tree_ind. intros code.
  destruct l as [l|], r as [r|]; simpl in *; rewrite ?fmap_app, ?IHl, ?IHr; done.
Qed.

Lemma create_code_helper_paths n : full n → ∀ code pl,
  (∀ i, i ∈ (leaves n).*1 → 0 ≤ i < Z.of_nat (length pl)) →
  create_code_helper n code pl = Done (foldl set_code pl (code_paths n code)).
Proof.
  induction n as [c f l r IHl IHr] using HuffmanNode_tree_ind.
  intros Hfull code pl Hrange.
  destruct l as [l|], r as [r|]; simpl in Hfull; try done.
  - destruct Hfull as [Hl Hr]. simpl in IHl, IHr.
    rewrite leaves_node, fmap_app in Hrange.
    change (create_code_helper (mkHuffmanNode c f (Some l) (Some r)) code pl)
      with (create_code_helper l (code +:+ "0") pl ≫=
              λ pl', create_code_helper r (code +:+ "1") pl').
    rewrite IHl; [|done|intros i Hi; apply Hrange, elem_of_app; by left].
    simpl. rewrite IHr; [|done|].
    + by rewrite foldl_app.
    + intros i Hi. rewrite set_codes_length. apply Hrange, elem_of_app. by right.
  - simpl. rewrite setitem_in_range; [done|].
    apply Hrange. simpl. by left.
Qed.

(** Writing the codes of distinct in-range symbols: every symbol ends up
    with its own code. *)
Lemma set_codes_other ps pl (k : nat) :
  (∀ p, p ∈ ps → 0 ≤ p.1 ∧ Z.to_nat p.1 ≠ k) →
  foldl set_code pl ps !! k = pl !! k.
Proof.
  revert pl. induction ps as [|p ps IH]; intros pl Hne; simpl; [done|].
  rewrite IH; [|intros q Hq; apply Hne; by right].
  unfold set_code. apply list_lookup_insert_ne. apply Hne. by left.
Qed.

Lemma set_codes_lookup ps pl i c :
  NoDup ps.*1 → (∀ j, j ∈ ps.*1 → 0 ≤ j < Z.of_nat (length pl)) →
  (i, c) ∈ ps → foldl set_code pl ps !! Z.to_nat i = Some c.
Proof.
  revert pl. induction ps as [|[j d] ps IH]; intros pl Hnd Hrange Hin; simpl.
  { by apply elem_of_nil in Hin. }
  simpl in Hnd. apply NoDup_cons in Hnd as [Hj Hnd].
  apply elem_of_cons in Hin as [Heq|Hin].
  - assert (i = j ∧ c = d) as [<- <-] by (by simplify_eq). clear Heq.
    rewrite set_codes_other.
    + unfold set_code. simpl. apply list_lookup_insert_eq.
      specialize (Hrange i ltac:(simpl; left)). lia.
    + intros [j' d'] Hq. simpl.
      assert (j' ∈ ps.*1) as Hj' by (apply list_elem_of_fmap; by exists (j', d')).
      pose proof (Hrange j' ltac:(simpl; by right)).
      pose proof (Hrange i ltac:(simpl; left)).
      split; [lia|]. intros E. apply Hj. replace i with j' by lia. done.
  - apply IH; [done| |done].
    intros j' Hj'. unfold set_code. rewrite length_insert.
    apply Hrange. simpl. by right.
Qed.

(** Paths relative to the node they start from. *)
Lemma code_paths_rel n : ∀ code,
  code_paths n code = prod_map id (String.app code) <$> code_paths n "".
Proof.
  induction n as [c f l r IHl IHr] using HuffmanNode_tree_ind. intros code.
  assert (∀ m d, (∀ code, code_paths m code =
                   prod_map id (String.app code) <$> code_paths m "") →
    code_paths m (code +:+ d) =
    prod_map id (String.app code) <$> code_paths m ("" +:+ d)) as Hstep.
  { intros m d IH. rewrite (IH (code +:+ d)), (IH ("" +:+ d)), <- list_fmap_compose.
    apply list_fmap_ext. intros ? [??] _. unfold prod_map. simpl.
    by rewrite string_app_assoc. }
  destruct l as [l|], r as [r|]; simpl in *; rewrite ?fmap_app, ?Hstep; try done.
  unfold prod_map. simpl. by rewrite string_app_nil_r.
Qed.

Lemma is_prefix_cons a s b t : is_prefix (String a s) (String b t) → a = b ∧ is_prefix s t.
Proof. intros [k Hk]. rewrite string_app_cons in Hk. simplify_eq. split; [done|by exists k]. Qed.

(** Two different leaves of one tree: the path of neither starts with the
    path of the other. *)
Lemma code_paths_prefix_free n : ∀ i j ci cj,
  (i, ci) ∈ code_paths n "" → (j, cj) ∈ code_paths n "" → i ≠ j →
  ¬ is_prefix ci cj.
Proof.
  induction n as [c f l r IHl IHr] using HuffmanNode_tree_ind.
  intros i j ci cj Hi Hj Hne Hpre.
  assert (∀ (t : option HuffmanNode) d k ck,
    (k, ck) ∈ on_child (λ n, code_paths n ("" +:+ d)) t →
    ∃ m ck', t = Some m ∧ ck = d +:+ ck' ∧ (k, ck') ∈ code_paths m "") as Hsplit.
  { intros [m|] d k ck Hk; simpl in Hk; [|by apply elem_of_nil in Hk].
    rewrite code_paths_rel in Hk. apply list_elem_of_fmap in Hk as ([k' ck'] & Heq & Hk).
    unfold prod_map in Heq. simplify_eq/=. eauto. }
  assert (code_paths (mkHuffmanNode c f l r) "" =
          on_child (λ n, code_paths n ("" +:+ "0")) l ++
          on_child (λ n, code_paths n ("" +:+ "1")) r ∨
          code_paths (mkHuffmanNode c f l r) "" = [(c, "")]) as [E|E].
  { destruct l, r; simpl; auto. }
  - rewrite E in Hi, Hj.
    apply elem_of_app in Hi as [Hi|Hi]; apply Hsplit in Hi as (mi & ci' & -> & -> & Hi);
    apply elem_of_app in Hj as [Hj|Hj]; apply Hsplit in Hj as (mj & cj' & ? & -> & Hj);
      simplify_eq; apply is_prefix_cons in Hpre as [? Hpre]; try done.
    + by apply (IHl i j ci' cj').
    + by apply (IHr i j ci' cj').
  - rewrite E in Hi, Hj.
    apply list_elem_of_singleton in Hi, Hj. congruence.
Qed.

(** ** cnt_freq *)

Lemma sum_insert (l : list Z) k v w :
  l !! k = Some v → sum (<[k := w]> l) = sum l - v + w.
Proof.
  revert k. induction l as [|x l IH]; intros [|k] Hk; simplify_eq/=.
  - unfold sum. simpl. lia.
  - unfold sum in *. simpl. rewrite (IH k Hk). lia.
Qed.

Lemma count_loop_spec data : ∀ values,
  length values = 256%nat → in_alphabet data →
  ∃ values', count_loop data values = Done values' ∧
    length values' = 256%nat ∧
    sum values' = sum values + Z.of_nat (length data) ∧
    ∀ i v, values !! i = Some v → values' !! i = Some (v + occurrences i data).
Proof.
  induction data as [|c data IH]; intros values Hlen Hdata.
  { exists values. split_and!; [done|done|simpl; lia|].
    intros i v Hv. rewrite Hv. f_equal. unfold occurrences. simpl. lia. }
  apply Forall_cons in Hdata as [Hc Hdata]. simpl.
  destruct (getitem_in_range values (ord c)) as (v & Hv & ->).
  { unfold ord. lia. }
  simpl. rewrite setitem_in_range; [|unfold ord; lia]. simpl.
  destruct (IH (<[Z.to_nat (ord c) := v + 1]> values)) as (values' & -> & Hlen' & Hsum & Hocc);
    [by rewrite length_insert|done|].
  exists values'. split_and!; [done|done| |].
  - rewrite Hsum, (sum_insert _ _ v) by done. simpl length. lia.
  - intros i w Hw. unfold occurrences. rewrite filter_cons.
    destruct (decide (c = N.of_nat i)) as [->|Hne].
    + assert (Z.to_nat (ord (N.of_nat i)) = i) as Ei by (unfold ord; lia).
      rewrite Ei in *. assert (w = v) as -> by congruence.
      erewrite Hocc; [|apply list_lookup_insert_eq; by apply lookup_lt_Some in Hw].
      f_equal. unfold occurrences. simpl length. lia.
    + erewrite Hocc; [done|]. rewrite list_lookup_insert_ne; [done|].
      unfold ord. lia.
Qed.

Lemma cnt_freq_missing fs filename :
  fs !! filename = None → cnt_freq filename fs = (Raised FileNotFoundError, fs).
Proof.
  intros H. unfold cnt_freq, isfile, mbind, io_mbind, io_bind. rewrite H.
  rewrite bool_decide_false; [done|]. by intros [? ?].
Qed.

Lemma cnt_freq_existing fs filename data :
  fs !! filename = Some data →
  cnt_freq filename fs = (count_loop data (replicate 256 0), fs).
Proof.
  intros H. unfold cnt_freq, isfile, read_file, mbind, io_mbind, io_bind. rewrite H.
  rewrite bool_decide_true; [|by eexists]. simpl. by rewrite H.
Qed.

Lemma cnt_freq_spec fs filename data :
  fs !! filename = Some data → in_alphabet data →
  ∃ values, cnt_freq filename fs = (Done values, fs) ∧
    length values = 256%nat ∧
    sum values = Z.of_nat (length data) ∧
    Forall (Z.le 0) values ∧
    ∀ i, (i < 256)%nat → values !! i = Some (occurrences i data).
Proof.
  intros Hfs Hdata.
  destruct (count_loop_spec data (replicate 256 0)) as (values & Hrun & Hlen & Hsum & Hocc);
    [done..|].
  exists values. rewrite (cnt_freq_existing _ _ _ Hfs), Hrun.
  assert (∀ i, (i < 256)%nat → values !! i = Some (occurrences i data)) as Hval.
  { intros i Hi. rewrite (Hocc i 0); [done|]. by apply lookup_replicate_2. }
  split_and!; [done|done| |  |done].
  - rewrite Hsum. replace (sum (replicate 256 0)) with 0 by by vm_compute. lia.
  - apply Forall_lookup. intros i v Hv.
    rewrite Hval in Hv by (apply lookup_lt_Some in Hv; lia).
    simplify_eq. unfold occurrences. lia.
Qed.

(** ** create_header *)

Lemma string_length_app s t :
  String.length (s +:+ t) = (String.length s + String.length t)%nat.
Proof. induction s as [|c s IH]; [done|]. rewrite string_app_cons. simpl. by rewrite IH. Qed.

Lemma substring_app_l s t : String.substring 0 (String.length s) (s +:+ t) = s.
Proof.
  induction s as [|c s IH].
  - by destruct t.
  - rewrite string_app_cons. simpl. by rewrite IH.
Qed.

Lemma header_loop_spec freqs : ∀ count header,
  header_loop freqs count header = header +:+ spaced (nonzero_from count freqs).
Proof.
  induction freqs as [|f freqs IH]; intros count header; simpl.
  - by rewrite string_app_nil_r.
  - rewrite IH. destruct (f =? 0); simpl; [done|].
    unfold pair_text. simpl. by rewrite !string_app_assoc.
Qed.

Lemma spaced_concat p ps :
  spaced (p :: ps) = String.concat " " (pair_text <$> p :: ps) +:+ " ".
Proof.
  revert p. induction ps as [|q ps IH]; intros p.
  - done.
  - change (spaced (p :: q :: ps)) with (pair_text p +:+ " " +:+ spaced (q :: ps)).
    rewrite IH. simpl. by rewrite !string_app_assoc.
Qed.

Lemma slice_to_spaced ps :
  slice_to (spaced ps) (Z.of_nat (String.length (spaced ps)) - 1) =
  String.concat " " (pair_text <$> ps).
Proof.
  destruct ps as [|p ps]; [done|].
  rewrite spaced_concat. set (s := String.concat " " (pair_text <$> p :: ps)).
  unfold slice_to. rewrite string_length_app. simpl String.length.
  destruct (Z.ltb_spec (Z.of_nat (String.length s + 1) - 1) 0); [lia|].
  replace (Z.to_nat _) with (String.length s) by lia.
  apply substring_app_l.
Qed.

Lemma create_header_spec freqs :
  create_header freqs = String.concat " " (pair_text <$> nonzero_pairs freqs).
Proof.
  unfold create_header. rewrite header_loop_spec.
  change ("" +:+ ?s) with s. apply slice_to_spaced.
Qed.

(** ** huffman_encode *)

Lemma encode_loop_spec code_list phrase : ∀ code,
  length code_list = 256%nat → in_alphabet phrase →
  encode_loop phrase code_list code = Done (code +:+ payload code_list phrase).
Proof.
  induction phrase as [|c phrase IH]; intros code Hlen Hdata; simpl.
  { by rewrite string_app_nil_r. }
  apply Forall_cons in Hdata as [Hc Hdata].
  destruct (getitem_in_range code_list (ord c)) as (x & Hx & ->).
  { unfold ord. lia. }
  simpl. rewrite IH by done.
  replace (N.to_nat c) with (Z.to_nat (ord c)) by (unfold ord; lia).
  rewrite Hx. simpl. by rewrite string_app_assoc.
Qed.

Lemma text_of_string_app s t :
  text_of_string (s +:+ t) = text_of_string s ++ text_of_string t.
Proof.
  unfold text_of_string. induction s as [|c s IH]; [done|].
  rewrite string_app_cons. simpl. f_equal. apply IH.
Qed.

Lemma nonzero_pairs_range freqs i :
  i ∈ (nonzero_pairs freqs).*1 → 0 ≤ i < Z.of_nat (length freqs).
Proof.
  intros ([j g] & -> & Hin)%list_elem_of_fmap.
  apply elem_of_nonzero_pairs in Hin as (k & -> & Hk & _).
  apply lookup_lt_Some in Hk. simpl. lia.
Qed.

(** The code table of a tree over the symbols of a 256-entry table holds,
    for every leaf, the path to it. *)
Lemma create_code_root freqs root :
  length freqs = 256%nat → full root → leaves root ≡ₚ nonzero_pairs freqs →
  ∃ codes, create_code (Some root) = Done codes ∧ length codes = 256%nat ∧
    (∀ i c, (i, c) ∈ code_paths root "" → codes !! Z.to_nat i = Some c) ∧
    (∀ k, (∀ i, i ∈ (leaves root).*1 → Z.to_nat i ≠ k) → codes !! k = replicate 256 "" !! k).
Proof.
  intros Hlen Hfull Hleaves.
  assert (∀ i, i ∈ (leaves root).*1 → 0 ≤ i < 256) as Hrange.
  { intros i Hi. rewrite Hleaves in Hi. apply nonzero_pairs_range in Hi. lia. }
  exists (foldl set_code (replicate 256 "") (code_paths root "")).
  split_and!.
  - unfold create_code. apply create_code_helper_paths; [done|].
    intros i Hi. rewrite length_replicate. by apply Hrange.
  - by rewrite set_codes_length, length_replicate.
  - intros i c Hin. apply set_codes_lookup; [| |done].
    + rewrite code_paths_ids, Hleaves. apply nonzero_from_NoDup.
    + intros j Hj. rewrite code_paths_ids in Hj. rewrite length_replicate. by apply Hrange.
  - intros k Hk. apply set_codes_other. intros [i c] Hin. simpl.
    assert (i ∈ (leaves root).*1) as Hi.
    { rewrite <- (code_paths_ids root ""). apply list_elem_of_fmap. by exists (i, c). }
    split; [apply Hrange in Hi; lia|by apply Hk].
Qed.

Lemma huffman_encode_run fuel in_file out_file fs data freqs root codes :
  fs !! in_file = Some data → in_alphabet data →
  cnt_freq in_file fs = (Done freqs, fs) →
  create_huff_tree fuel freqs = Done (Some root) →
  create_code (Some root) = Done codes → length codes = 256%nat →
  huffman_encode fuel in_file out_file fs =
    (Done (), <[out_file := text_of_string
                  (create_header freqs +:+ newline +:+ payload codes data)]> fs).
Proof.
  intros Hfs Hdata Hcnt Htree Hcode Hlen.
  unfold huffman_encode, mbind, io_mbind, io_bind, lift. rewrite Hcnt, Htree, Hcode.
  unfold read_file. rewrite Hfs.
  rewrite encode_loop_spec by done.
  unfold open_w, write. change ("" +:+ ?s) with s.
  rewrite !lookup_insert_eq, !insert_insert_eq. simpl.
  by rewrite <- text_of_string_app, string_app_assoc.
Qed.

Lemma huffman_encode_spec in_file out_file fs data :
  fs !! in_file = Some data → data ≠ [] → in_alphabet data →
  ∃ freqs root codes,
    cnt_freq in_file fs = (Done freqs, fs) ∧
    length freqs = 256%nat ∧
    (∀ i, (i < 256)%nat → freqs !! i = Some (occurrences i data)) ∧
    create_code (Some root) = Done codes ∧
    (∀ i c, (i, c) ∈ code_paths root "" → codes !! Z.to_nat i = Some c) ∧
    ∀ fuel, (256 ≤ fuel)%nat →
      create_huff_tree fuel freqs = Done (Some root) ∧
      huffman_encode fuel in_file out_file fs =
        (Done (), <[out_file := text_of_string
                      (create_header freqs +:+ newline +:+ payload codes data)]> fs).
Proof.
  intros Hfs Hne Hdata.
  destruct (cnt_freq_spec fs in_file data Hfs Hdata)
    as (freqs & Hcnt & Hlen & Hsum & Hpos & Hocc).
  destruct (create_huff_tree_builds freqs)
    as (root & Htree & Hfull & Htinv & Hleaves & Hbuilds).
  { rewrite Hsum. destruct data; [done|simpl; lia]. }
  destruct (create_code_root freqs root Hlen Hfull Hleaves)
    as (codes & Hcode & Hclen & Hpaths & _).
  exists freqs, root, codes. split_and!; [done..|].
  intros fuel Hfuel. rewrite Hlen in Htree. split; [by apply Htree|].
  eapply huffman_encode_run; eauto.
Qed.

Lemma getitem_Done_range {A} (l : list A) i x :
  getitem l i = Done x → - Z.of_nat (length l) ≤ i < Z.of_nat (length l).
Proof.
  unfold getitem, py_index.
  destruct (Z.leb_spec 0 i), (Z.ltb_spec i (Z.of_nat (length l))),
    (Z.leb_spec (- Z.of_nat (length l)) i); try done; lia.
Qed.

Lemma getitem_not_found {A} (l : list A) i : getitem l i ≠ Raised FileNotFoundError.
Proof. unfold getitem. repeat case_match; done. Qed.

Lemma setitem_not_found {A} (l : list A) i v : setitem l i v ≠ Raised FileNotFoundError.
Proof. unfold setitem. repeat case_match; done. Qed.

Lemma setitem_length {A} (l l' : list A) i v :
  setitem l i v = Done l' → length l' = length l.
Proof. unfold setitem. case_match; [|done]. intros [= <-]. apply length_insert. Qed.

(** The counting loop raises nothing but IndexError, and that exactly when
    a character lies outside the 256 entries. *)
Lemma count_loop_not_found data : ∀ values,
  count_loop data values ≠ Raised FileNotFoundError.
Proof.
  induction data as [|c data IH]; intros values; simpl; [done|].
  pose proof (getitem_not_found values (ord c)) as Hg.
  destruct (getitem values (ord c)) as [v|e|]; simpl; [|congruence|done].
  pose proof (setitem_not_found values (ord c) (v + 1)) as Hs.
  destruct (setitem values (ord c) (v + 1)) as [values'|e|]; simpl; [|congruence|done].
  apply IH.
Qed.

Lemma count_loop_Done data : ∀ values values',
  length values = 256%nat → count_loop data values = Done values' → in_alphabet data.
Proof.
  induction data as [|c data IH]; intros values values' Hlen; simpl; [constructor|].
  destruct (getitem values (ord c)) as [v| |] eqn:Hget; simpl; [|done..].
  destruct (setitem values (ord c) (v + 1)) as [values1| |] eqn:Hset; simpl; [|done..].
  intros Hrun. assert (0 ≤ ord c) by (unfold ord; lia). constructor.
  - apply getitem_Done_range in Hget. unfold ord in Hget. lia.
  - eapply IH; [|done]. by rewrite (setitem_length _ _ _ _ Hset).
Qed.

Lemma payload_empty code_list phrase :
  Forall (λ s, s = "") code_list → payload code_list phrase = "".
Proof.
  intros Hall. induction phrase as [|c phrase IH]; simpl; [done|]. rewrite IH.
  destruct (code_list !! N.to_nat c) as [s|] eqn:E; [|done].
  by rewrite (Forall_lookup_1 _ _ _ _ Hall E).
Qed.

Lemma nonzero_from_filter i freqs :
  length (nonzero_from i freqs) = length (filter (λ f, f ≠ 0) freqs).
Proof.
  revert i. induction freqs as [|f freqs IH]; intros i; simpl; [done|].
  rewrite filter_cons, length_app, (IH (i + 1)).
  destruct (Z.eqb_spec f 0), (decide (f ≠ 0)); simpl; done.
Qed.

Lemma nonzero_from_nil i freqs :
  nonzero_from i freqs = [] ↔ Forall (λ f, f = 0) freqs.
Proof.
  revert i. induction freqs as [|f freqs IH]; intros i; simpl; [done|].
  rewrite Forall_cons, <- (IH (i + 1)).
  destruct (Z.eqb_spec f 0); simpl; naive_solver.
Qed.

(** A table with one nonzero count gives a single leaf, at any budget that
    allows the one call of huff_helper. *)
Lemma create_huff_tree_single freqs i f fuel :
  nonzero_pairs freqs = [(i, f)] → (1 ≤ fuel)%nat →
  create_huff_tree fuel freqs = Done (Some (leaf i f)).
Proof.
  intros Hnz Hfuel. unfold create_huff_tree.
  pose proof (nonzero_from_sum 0 freqs) as Hsum. fold (nonzero_pairs freqs) in Hsum.
  rewrite Hnz in Hsum. unfold sum in Hsum at 1. simpl in Hsum.
  assert (f ≠ 0) as Hf.
  { assert ((i, f) ∈ nonzero_pairs freqs) as Hin by (rewrite Hnz; left).
    by apply elem_of_nonzero_pairs in Hin as (k & _ & _ & ?). }
  destruct (Z.eqb_spec (sum freqs) 0); [lia|].
  rewrite leaf_loop_spec. fold (nonzero_pairs freqs). rewrite Hnz.
  destruct fuel as [|fuel]; [lia|]. done.
Qed.


(** * The claims *)

(** C2.  For any two nodes [x] and [y], in either argument order,
    [combine x y] is a new internal node of weight [freq x + freq y] and
    symbol id [min (char_ascii x) (char_ascii y)]; its left child is the
    one of [x], [y] that comes before the other, its right child the other
    one; so [combine x y = combine y x] whenever the two are comparable. *)
Theorem combine_spec (x y : HuffmanNode) :
  freq (combine x y) = freq x + freq y ∧
  char_ascii (combine x y) = Z.min (char_ascii x) (char_ascii y) ∧
  ((left (combine x y) = Some x ∧ right (combine x y) = Some y) ∨
   (left (combine x y) = Some y ∧ right (combine x y) = Some x)) ∧
  (comes_before x y = true →
     left (combine x y) = Some x ∧ right (combine x y) = Some y ∧
     left (combine y x) = Some x ∧ right (combine y x) = Some y) ∧
  (comes_before y x = true →
     left (combine x y) = Some y ∧ right (combine x y) = Some x ∧
     left (combine y x) = Some y ∧ right (combine y x) = Some x) ∧
  (comes_before x y = true ∨ comes_before y x = true →
     combine x y = combine y x).
Proof.
  assert (∀ a b, comes_before a b = true →
    combine a b = mkHuffmanNode (Z.min (char_ascii a) (char_ascii b))
                    (freq a + freq b) (Some a) (Some b) ∧
    combine b a = mkHuffmanNode (Z.min (char_ascii a) (char_ascii b))
                    (freq a + freq b) (Some a) (Some b)) as Hcomp.
  { intros a b Hab. pose proof (comes_before_asym _ _ Hab) as Hba.
    destruct (combine_cases a b) as [[-> _]|[_ ?]]; [|congruence].
    destruct (combine_cases b a) as [[_ [?|Hlt]]|[-> _]]; [congruence| |].
    - apply comes_before_spec in Hab. lia.
    - split; [done|]. f_equal; lia. }
  split_and!.
  - destruct (combine_shape x y) as (lo & hi & -> & _). done.
  - destruct (combine_shape x y) as (lo & hi & -> & _). done.
  - destruct (combine_shape x y) as (lo & hi & -> & [[-> ->]|[-> ->]]); auto.
  - intros [-> ->]%Hcomp. done.
  - intros [-> ->]%Hcomp. done.
  - intros [[-> ->]%Hcomp|[-> ->]%Hcomp]; done.
Qed.

Lemma combine_spec_witness :
  comes_before (leaf 99 2) (leaf 97 3) = true ∧
  left (combine (leaf 97 3) (leaf 99 2)) = Some (leaf 99 2) ∧
  right (combine (leaf 97 3) (leaf 99 2)) = Some (leaf 97 3) ∧
  combine (leaf 97 3) (leaf 99 2) = combine (leaf 99 2) (leaf 97 3).
Proof.
  pose proof (combine_spec (leaf 97 3) (leaf 99 2)) as (_ & _ & _ & _ & Hyx & Hsym).
  assert (comes_before (leaf 99 2) (leaf 97 3) = true) as Hcb by reflexivity.
  destruct (Hyx Hcb) as (Hl & Hr & _).
  split_and!; [exact Hcb|exact Hl|exact Hr|].
  apply Hsym. right. exact Hcb.
Defined.

(** C10, as stated, fails: on a list holding two nodes with the same
    weight and symbol id, huff_helper swaps them at every level of its
    recursion and returns at no budget.  Nor does the number of adjacent
    pairs out of order decrease with every swap: the swap huff_helper
    makes at position 1 of the weights 2, 3, 1 leaves it at one. *)
Lemma huff_helper_tie_never_returns :
  (¬ ∃ fuel l', huff_helper fuel [leaf 1 1; leaf 1 1] = Done l') ∧
  comes_before (leaf 0 2) (leaf 0 3) = true ∧
  comes_before (leaf 0 3) (leaf 0 1) = false ∧
  <[2%nat := leaf 0 3]> (<[1%nat := leaf 0 1]> [leaf 0 2; leaf 0 3; leaf 0 1]) =
    [leaf 0 2; leaf 0 1; leaf 0 3] ∧
  out_of_order_pairs [leaf 0 2; leaf 0 3; leaf 0 1] = 1%nat ∧
  out_of_order_pairs [leaf 0 2; leaf 0 1; leaf 0 3] = 1%nat.
Proof.
  split; [|by vm_compute].
  intros (fuel & l' & H). revert l' H.
  induction fuel as [|fuel IH]; intros l' H; [done|].
  simpl in H. change (comes_before (leaf 1 1) (leaf 1 1)) with false in H.
  simpl in H. destruct (huff_helper fuel _) as [l1| |] eqn:E; [|done..].
  by eapply IH.
Qed.

(** C10, amended.  On every list of nodes whose (weight, symbol id) keys are
    pairwise distinct, huff_helper returns once its budget exceeds the
    number of inversions of the list, which decreases by one with every
    swap; what it returns is the same nodes rearranged with no adjacent
    pair out of order, so that position 0 holds the lowest node and
    position 1 the lowest of the others.  It returns on no other list. *)
Theorem huff_helper_sorts_distinct (l : list HuffmanNode) :
  NoDup (key <$> l) →
  (∃ l',
    (∀ fuel, (inversions l < fuel)%nat → huff_helper fuel l = Done l') ∧
    l ≡ₚ l' ∧ adjacent_sorted l' ∧
    (∀ a b rest, l' = a :: b :: rest → lowest a (b :: rest) ∧ lowest b rest)) ∧
  (∀ pre a b post, l = pre ++ a :: b :: post → comes_before a b = false →
     inversions l = S (inversions (pre ++ b :: a :: post))) ∧
  (∀ l2 fuel r, huff_helper fuel l2 = Done r →
     NoDup (key <$> l2) ∧ l2 ≡ₚ r ∧ adjacent_sorted r).
Proof.
  intros Hnd. split_and!.
  - destruct (huff_helper_sorts (S (inversions l)) l Hnd) as (l' & Hl' & Hp & Hs); [lia|].
    exists l'. split_and!; [|done..|].
    + intros fuel Hf. eapply huff_helper_mono; [|exact Hl']. lia.
    + intros a b rest ->. split.
      * by apply sorted_head_lowest.
      * by eapply sorted_head_lowest, adjacent_sorted_tail.
  - intros pre a b post -> Hab. apply inversions_swap.
    apply comes_before_total; [|done].
    rewrite fmap_app, !fmap_cons in Hnd.
    apply NoDup_app in Hnd as (_ & _ & Hnd).
    apply NoDup_cons in Hnd as [Hnd _]. intros E. apply Hnd. rewrite E. left.
  - intros l2 fuel r [Hp Hs]%huff_helper_returns. split_and!; [|done..].
    rewrite Hp. by apply StronglySorted_NoDup_key, adjacent_sorted_StronglySorted.
Qed.

Lemma huff_helper_sorts_distinct_witness :
  NoDup (key <$> [leaf 1 3; leaf 1 2; leaf 0 2]) ∧
  ∃ l', (∀ fuel, (inversions [leaf 1 3; leaf 1 2; leaf 0 2] < fuel)%nat →
           huff_helper fuel [leaf 1 3; leaf 1 2; leaf 0 2] = Done l') ∧
        [leaf 1 3; leaf 1 2; leaf 0 2] ≡ₚ l' ∧ adjacent_sorted l'.
Proof.
  assert (NoDup (key <$> [leaf 1 3; leaf 1 2; leaf 0 2])) as Hnd.
  { apply (bool_decide_unpack _). vm_compute. exact I. }
  split; [exact Hnd|].
  destruct (huff_helper_sorts_distinct _ Hnd) as ((l' & Hrun & Hp & Hs & _) & _).
  exists l'. split_and!; assumption.
Defined.

(** C1.  On a table of non-negative counts, create_huff_tree returns None
    when all counts are zero; otherwise it creates one leaf per symbol
    with a nonzero count and returns a root reached from these leaves by
    steps that each take
    the two lowest nodes under comes_before out of the working multiset
    and put their combination in, until one node remains.  For a=3, b=4,
    c=2 the first merge is of c and a (weight 5, id 97), the second of
    that node with b, giving a root of weight 9 and id 97 with b on the
    left.  The steps leave no choice, so the root is the only node they
    lead to. *)
Theorem create_huff_tree_refines_spec :
  (∀ freqs : list Z, Forall (Z.le 0) freqs →
     (Forall (λ f, f = 0) freqs → ∀ fuel, create_huff_tree fuel freqs = Done None) ∧
     (¬ Forall (λ f, f = 0) freqs →
        ∃ root,
          (∀ fuel, (length freqs ≤ fuel)%nat →
             create_huff_tree fuel freqs = Done (Some root)) ∧
          leaf_loop freqs 0 [] = leaf_nodes freqs ∧
          (∀ n, n ∈ leaf_nodes freqs ↔
             ∃ (i : nat) f, freqs !! i = Some f ∧ f ≠ 0 ∧ n = leaf (Z.of_nat i) f) ∧
          NoDup (leaf_nodes freqs) ∧
          builds (leaf_nodes freqs) root ∧
          (∀ r, builds (leaf_nodes freqs) r → r = root))) ∧
  leaf_nodes abc_freqs = [leaf 97 3; leaf 98 4; leaf 99 2] ∧
  merge_step [leaf 97 3; leaf 98 4; leaf 99 2]
    [leaf 98 4; mkHuffmanNode 97 5 (Some (leaf 99 2)) (Some (leaf 97 3))] ∧
  merge_step [leaf 98 4; mkHuffmanNode 97 5 (Some (leaf 99 2)) (Some (leaf 97 3))]
    [mkHuffmanNode 97 9 (Some (leaf 98 4))
       (Some (mkHuffmanNode 97 5 (Some (leaf 99 2)) (Some (leaf 97 3))))] ∧
  create_huff_tree 10 abc_freqs =
    Done (Some (mkHuffmanNode 97 9 (Some (leaf 98 4))
                  (Some (mkHuffmanNode 97 5 (Some (leaf 99 2)) (Some (leaf 97 3)))))).
Proof.
  split_and!.
  - intros freqs Hpos. split.
    + intros Hzero fuel. unfold create_huff_tree.
      apply (sum_zero_iff _ Hpos) in Hzero. by rewrite Hzero.
    + intros Hnz.
      destruct (create_huff_tree_builds freqs) as (root & Hrun & _ & _ & _ & Hb).
      { by rewrite (sum_zero_iff _ Hpos). }
      exists root. split_and!; [done| | | |done|].
      * apply leaf_loop_spec.
      * intros n. unfold leaf_nodes. rewrite list_elem_of_fmap. split.
        -- intros ([j g] & -> & (k & -> & ? & ?)%elem_of_nonzero_pairs). by exists k, g.
        -- intros (k & g & ? & ? & ->). exists (Z.of_nat k, g). split; [done|].
           apply elem_of_nonzero_pairs. by exists k.
      * unfold leaf_nodes. apply (NoDup_fmap_1 char_ascii).
        rewrite <- list_fmap_compose. apply nonzero_from_NoDup.
      * intros r Hr. symmetry. by eapply builds_deterministic.
  - by vm_compute.
  - eapply (merge_step_intro _ _ (leaf 99 2) (leaf 97 3) [leaf 98 4]).
    + symmetry. apply (Permutation_cons_append [leaf 97 3; leaf 98 4]).
    + by repeat constructor.
    + by repeat constructor.
    + apply perm_swap.
  - eapply (merge_step_intro _ _ (leaf 98 4) _ []); [done| | |done].
    + by repeat constructor.
    + constructor.
  - by vm_compute.
Qed.

Lemma create_huff_tree_refines_spec_witness :
  Forall (Z.le 0) abc_freqs ∧ ¬ Forall (λ f, f = 0) abc_freqs ∧
  ∃ root,
    (∀ fuel, (length abc_freqs ≤ fuel)%nat →
       create_huff_tree fuel abc_freqs = Done (Some root)) ∧
    builds (leaf_nodes abc_freqs) root.
Proof.
  assert (Forall (Z.le 0) abc_freqs) as Hpos.
  { apply (bool_decide_unpack _). vm_compute. exact I. }
  assert (¬ Forall (λ f, f = 0) abc_freqs) as Hnz.
  { apply (bool_decide_unpack _). vm_compute. exact I. }
  split_and!; [exact Hpos|exact Hnz|].
  destruct create_huff_tree_refines_spec as (Hgen & _).
  destruct (Hgen abc_freqs Hpos) as (_ & Hsome).
  destruct (Hsome Hnz) as (root & Hrun & _ & _ & _ & Hb & _).
  exists root. split; assumption.
Defined.

(** C3.  For a 256-entry table of non-negative counts with at least two
    nonzero entries, the code table create_code derives from the tree of
    create_huff_tree is prefix-free: of two different symbols with a
    nonzero count, the code of neither is a prefix of the code of the
    other. *)
Theorem code_table_prefix_free (freqs : list Z) :
  length freqs = 256%nat → Forall (Z.le 0) freqs →
  (2 ≤ nonzero_count freqs)%nat →
  ∃ root codes,
    (∀ fuel, (256 ≤ fuel)%nat →
       create_huff_tree fuel freqs = Done (Some root)) ∧
    create_code (Some root) = Done codes ∧
    ∀ (i j : nat) fi fj,
      freqs !! i = Some fi → fi ≠ 0 → freqs !! j = Some fj → fj ≠ 0 → i ≠ j →
      ∃ ci cj, codes !! i = Some ci ∧ codes !! j = Some cj ∧
        ¬ is_prefix ci cj ∧ ¬ is_prefix cj ci.
Proof.
  intros Hlen Hpos Htwo.
  destruct (create_huff_tree_builds freqs) as (root & Hrun & Hfull & _ & Hleaves & _).
  { intros Hz. apply (sum_zero_iff _ Hpos), (nonzero_from_nil 0) in Hz.
    unfold nonzero_count in Htwo.
    rewrite <- (nonzero_from_filter 0), Hz in Htwo. simpl in Htwo. lia. }
  destruct (create_code_root freqs root Hlen Hfull Hleaves)
    as (codes & Hcode & _ & Hpaths & _).
  exists root, codes. rewrite Hlen in Hrun. split_and!; [done..|].
  assert (∀ (k : nat) g, freqs !! k = Some g → g ≠ 0 →
    ∃ c, (Z.of_nat k, c) ∈ code_paths root "") as Hleaf.
  { intros k g Hk Hg.
    assert (Z.of_nat k ∈ (code_paths root "").*1) as Hin.
    { rewrite code_paths_ids, Hleaves. apply list_elem_of_fmap.
      exists (Z.of_nat k, g). split; [done|]. apply elem_of_nonzero_pairs. by exists k. }
    apply list_elem_of_fmap in Hin as ([k' c] & Hk' & Hin). simpl in Hk'. subst k'.
    by exists c. }
  intros i j fi fj Hi Hfi Hj Hfj Hne.
  destruct (Hleaf i fi Hi Hfi) as [ci Hci], (Hleaf j fj Hj Hfj) as [cj Hcj].
  exists ci, cj.
  pose proof (Hpaths _ _ Hci) as Hli. pose proof (Hpaths _ _ Hcj) as Hlj.
  rewrite Nat2Z.id in Hli, Hlj. split_and!; [done|done| |].
  - eapply code_paths_prefix_free; [exact Hci|exact Hcj|lia].
  - eapply code_paths_prefix_free; [exact Hcj|exact Hci|lia].
Qed.

Lemma code_table_prefix_free_witness :
  length abc_freqs = 256%nat ∧ Forall (Z.le 0) abc_freqs ∧
  (2 ≤ nonzero_count abc_freqs)%nat ∧
  ∃ root codes,
    (∀ fuel, (256 ≤ fuel)%nat →
       create_huff_tree fuel abc_freqs = Done (Some root)) ∧
    create_code (Some root) = Done codes.
Proof.
  assert (length abc_freqs = 256%nat) as Hlen by reflexivity.
  assert (Forall (Z.le 0) abc_freqs) as Hpos.
  { apply (bool_decide_unpack _). vm_compute. exact I. }
  assert (2 ≤ nonzero_count abc_freqs)%nat as Htwo.
  { vm_compute. lia. }
  split_and!; [exact Hlen|exact Hpos|exact Htwo|].
  destruct (code_table_prefix_free abc_freqs Hlen Hpos Htwo) as (root & codes & Hrun & Hcode & _).
  exists root, codes. split; assumption.
Defined.

(** C4.  For a table of non-negative counts that are not all zero, the
    root create_huff_tree returns has the sum of all entries as its
    weight; every node of the tree has the sum of the weights of the
    leaves below it as its weight and the least of their symbol ids as its
    symbol id; and combine preserves this property of trees. *)
Theorem tree_weight_invariant (freqs : list Z) :
  Forall (Z.le 0) freqs → ¬ Forall (λ f, f = 0) freqs →
  ∃ root,
    (∀ fuel, (length freqs ≤ fuel)%nat →
       create_huff_tree fuel freqs = Done (Some root)) ∧
    freq root = sum freqs ∧
    (∀ m, m ∈ nodes root →
       freq m = sum (leaves m).*2 ∧ is_minimum (char_ascii m) (leaves m).*1) ∧
    (∀ a b, tree_inv a → tree_inv b → tree_inv (combine a b)).
Proof.
  intros Hpos Hnz.
  destruct (create_huff_tree_builds freqs) as (root & Hrun & _ & Htinv & Hleaves & _).
  { by rewrite (sum_zero_iff _ Hpos). }
  exists root. split_and!; [done| | |apply combine_tree_inv].
  - destruct (tree_inv_root _ Htinv) as [-> _].
    rewrite <- (nonzero_from_sum 0 freqs). apply sum_perm. by rewrite Hleaves.
  - intros m Hm. unfold tree_inv in Htinv. rewrite Forall_forall in Htinv.
    by apply Htinv.
Qed.

Lemma tree_weight_invariant_witness :
  Forall (Z.le 0) abc_freqs ∧ ¬ Forall (λ f, f = 0) abc_freqs ∧
  ∃ root,
    (∀ fuel, (length abc_freqs ≤ fuel)%nat →
       create_huff_tree fuel abc_freqs = Done (Some root)) ∧
    freq root = sum abc_freqs.
Proof.
  assert (Forall (Z.le 0) abc_freqs) as Hpos.
  { apply (bool_decide_unpack _). vm_compute. exact I. }
  assert (¬ Forall (λ f, f = 0) abc_freqs) as Hnz.
  { apply (bool_decide_unpack _). vm_compute. exact I. }
  split_and!; [exact Hpos|exact Hnz|].
  destruct (tree_weight_invariant abc_freqs Hpos Hnz) as (root & Hrun & Hw & _).
  exists root. split; assumption.
Defined.

(** C5.  For every table, create_header returns the texts
    "<symbol> <count>" of exactly the symbols with a nonzero count, in
    ascending order of symbol, joined by single spaces, with nothing after
    the last; for a=3, b=4, c=2 that is "97 3 98 4 99 2". *)
Theorem create_header_format :
  (∀ freqs : list Z,
     ∃ ps : list (Z * Z),
       create_header freqs = String.concat " " (pair_text <$> ps) ∧
       (∀ j g, (j, g) ∈ ps ↔
          ∃ k : nat, j = Z.of_nat k ∧ freqs !! k = Some g ∧ g ≠ 0) ∧
       StronglySorted Z.lt ps.*1) ∧
  create_header abc_freqs = "97 3 98 4 99 2".
Proof.
  split.
  - intros freqs. exists (nonzero_pairs freqs). split_and!.
    + apply create_header_spec.
    + intros j g. apply elem_of_nonzero_pairs.
    + apply nonzero_from_sorted.
  - by vm_compute.
Qed.

(** C9, as stated, fails: the file exists, and cnt_freq raises IndexError
    on its character with code point 8220. *)
Lemma cnt_freq_wide_char_fails :
  quote_fs !! "in" = Some [8220%N] ∧
  cnt_freq "in" quote_fs = (Raised IndexError, quote_fs).
Proof. split; by vm_compute. Qed.

(** C9, amended.  cnt_freq raises the file-not-found error exactly when the
    named file does not exist; huffman_encode then stops with that error
    and leaves the file system as it was.  On an existing file, the empty
    one included, cnt_freq returns normally exactly when every character
    has a code point below 256, and what it returns is a 256-entry list
    whose entry [i] is the number of occurrences of the character with
    code point [i]. *)
Theorem cnt_freq_errors (filename : string) (fs : gmap string text) :
  ((cnt_freq filename fs).1 = Raised FileNotFoundError ↔ fs !! filename = None) ∧
  (fs !! filename = None →
     cnt_freq filename fs = (Raised FileNotFoundError, fs) ∧
     ∀ fuel out_file,
       huffman_encode fuel filename out_file fs = (Raised FileNotFoundError, fs)) ∧
  (∀ data, fs !! filename = Some data →
     ((∃ values, cnt_freq filename fs = (Done values, fs)) ↔ in_alphabet data) ∧
     (in_alphabet data →
        ∃ values, cnt_freq filename fs = (Done values, fs) ∧
          length values = 256%nat ∧
          ∀ i, (i < 256)%nat → values !! i = Some (occurrences i data))).
Proof.
  split_and!.
  - split.
    + intros Hraise. destruct (fs !! filename) as [data|] eqn:Hfs; [|done].
      rewrite (cnt_freq_existing _ _ _ Hfs) in Hraise. simpl in Hraise.
      by apply count_loop_not_found in Hraise.
    + intros Hfs. by rewrite (cnt_freq_missing _ _ Hfs).
  - intros Hfs. split; [by apply cnt_freq_missing|].
    intros fuel out_file. unfold huffman_encode, mbind, io_mbind, io_bind.
    by rewrite (cnt_freq_missing _ _ Hfs).
  - intros data Hfs. split.
    + split.
      * intros [values Hrun]. rewrite (cnt_freq_existing _ _ _ Hfs) in Hrun.
        eapply (count_loop_Done data (replicate 256 0)); [done|].
        by injection Hrun.
      * intros Hdata.
        destruct (cnt_freq_spec fs filename data Hfs Hdata) as (values & ? & _).
        by exists values.
    + intros Hdata.
      destruct (cnt_freq_spec fs filename data Hfs Hdata)
        as (values & ? & ? & _ & _ & ?).
      by exists values.
Qed.

Lemma cnt_freq_errors_witness :
  empty_fs !! "in" = Some [] ∧ in_alphabet [] ∧
  ∃ values, cnt_freq "in" empty_fs = (Done values, empty_fs) ∧
    length values = 256%nat ∧
    ∀ i, (i < 256)%nat → values !! i = Some (occurrences i []).
Proof.
  assert (empty_fs !! "in" = Some []) as Hfs by reflexivity.
  assert (in_alphabet []) as Hdata by constructor.
  split_and!; [exact Hfs|exact Hdata|].
  destruct (cnt_freq_errors "in" empty_fs) as (_ & _ & Hok).
  destruct (Hok [] Hfs) as [_ Hcount]. exact (Hcount Hdata).
Defined.

(** C8.  On an empty input file cnt_freq returns 256 zero counts,
    create_huff_tree returns None, and huffman_encode creates the output
    file and writes nothing to it: no header line and no payload. *)
Theorem huffman_encode_empty_input (in_file out_file : string)
    (fs : gmap string text) :
  fs !! in_file = Some [] →
  cnt_freq in_file fs = (Done (replicate 256 0), fs) ∧
  ∀ fuel,
    create_huff_tree fuel (replicate 256 0) = Done None ∧
    huffman_encode fuel in_file out_file fs = (Done (), <[out_file := []]> fs).
Proof.
  intros Hfs.
  assert (cnt_freq in_file fs = (Done (replicate 256 0), fs)) as Hcnt.
  { by rewrite (cnt_freq_existing _ _ _ Hfs). }
  split; [done|]. intros fuel.
  assert (create_huff_tree fuel (replicate 256 0) = Done None) as Htree.
  { unfold create_huff_tree.
    replace (sum (replicate 256 0)) with 0 by by vm_compute. done. }
  split; [done|].
  unfold huffman_encode, mbind, io_mbind, io_bind, lift. by rewrite Hcnt, Htree.
Qed.

Lemma huffman_encode_empty_input_witness :
  empty_fs !! "in" = Some [] ∧
  huffman_encode 0 "in" "out" empty_fs = (Done (), <["out" := []]> empty_fs).
Proof.
  assert (empty_fs !! "in" = Some []) as Hfs by reflexivity.
  split; [exact Hfs|].
  destruct (huffman_encode_empty_input "in" "out" empty_fs Hfs) as [_ Hrun].
  destruct (Hrun 0%nat) as [_ Henc]. exact Henc.
Defined.

(** C6, as stated, fails: on the non-empty input holding the character
    with code point 8220, huffman_encode returns normally at no budget; it
    stops with the IndexError of cnt_freq and writes nothing. *)
Lemma huffman_encode_wide_char_fails :
  ¬ ∃ fuel fs', huffman_encode fuel "in" "out" quote_fs = (Done (), fs').
Proof.
  intros (fuel & fs' & H).
  unfold huffman_encode, mbind, io_mbind, io_bind in H.
  assert (cnt_freq "in" quote_fs = (Raised IndexError, quote_fs)) as Hcnt by by vm_compute.
  by rewrite Hcnt in H.
Qed.

(** C6, amended.  For every non-empty input whose characters all have code
    points below 256, huffman_encode writes the header of create_header,
    one newline, and then the codes of the characters of the input, in
    their order, taken from the code table; for "aaabbbbcc" the payload is
    "11111100001010". *)
Theorem huffman_encode_output :
  (∀ (in_file out_file : string) (fs : gmap string text) (data : text),
     fs !! in_file = Some data → data ≠ [] → in_alphabet data →
     ∃ freqs root codes,
       cnt_freq in_file fs = (Done freqs, fs) ∧
       create_code (Some root) = Done codes ∧
       ∀ fuel, (256 ≤ fuel)%nat →
         create_huff_tree fuel freqs = Done (Some root) ∧
         huffman_encode fuel in_file out_file fs =
           (Done (), <[out_file := text_of_string
                         (create_header freqs +:+ newline +:+ payload codes data)]> fs)) ∧
  huffman_encode 10 "in" "out" abc_fs =
    (Done (), <["out" := text_of_string
                  ("97 3 98 4 99 2" +:+ newline +:+ "11111100001010")]> abc_fs).
Proof.
  split.
  - intros in_file out_file fs data Hfs Hne Hdata.
    destruct (huffman_encode_spec in_file out_file fs data Hfs Hne Hdata)
      as (freqs & root & codes & Hcnt & _ & _ & Hcode & _ & Hrun).
    by exists freqs, root, codes.
  - by vm_compute.
Qed.

Lemma huffman_encode_output_witness :
  abc_fs !! "in" = Some (text_of_string "aaabbbbcc") ∧
  text_of_string "aaabbbbcc" ≠ [] ∧ in_alphabet (text_of_string "aaabbbbcc") ∧
  ∃ freqs root codes,
    cnt_freq "in" abc_fs = (Done freqs, abc_fs) ∧
    create_code (Some root) = Done codes ∧
    ∀ fuel, (256 ≤ fuel)%nat →
      create_huff_tree fuel freqs = Done (Some root) ∧
      huffman_encode fuel "in" "out" abc_fs =
        (Done (), <["out" := text_of_string
                      (create_header freqs +:+ newline +:+
                       payload codes (text_of_string "aaabbbbcc"))]> abc_fs).
Proof.
  assert (abc_fs !! "in" = Some (text_of_string "aaabbbbcc")) as Hfs by reflexivity.
  assert (text_of_string "aaabbbbcc" ≠ []) as Hne by discriminate.
  assert (in_alphabet (text_of_string "aaabbbbcc")) as Hdata.
  { apply (bool_decide_unpack _). vm_compute. exact I. }
  split_and!; [exact Hfs|exact Hne|exact Hdata|].
  destruct huffman_encode_output as [Hgen _].
  exact (Hgen "in" "out" abc_fs _ Hfs Hne Hdata).
Defined.

(** C7.  For a 256-entry table with exactly one nonzero entry,
    create_huff_tree returns a single leaf, with no left and no right
    child, create_code gives its symbol the empty string as code, and the
    payload of any text is empty then; for the input "zzzz" what is
    written is the header "122 4", a newline, and nothing else. *)
Theorem single_symbol_tree_and_code :
  (∀ freqs : list Z, length freqs = 256%nat → nonzero_count freqs = 1%nat →
     ∃ (i : nat) f root codes,
       freqs !! i = Some f ∧ f ≠ 0 ∧ root = leaf (Z.of_nat i) f ∧
       (∀ fuel, (1 ≤ fuel)%nat → create_huff_tree fuel freqs = Done (Some root)) ∧
       left root = None ∧ right root = None ∧
       create_code (Some root) = Done codes ∧ codes !! i = Some "" ∧
       (∀ phrase, in_alphabet phrase → encode_loop phrase codes "" = Done "") ∧
       (∀ in_file out_file (fs : gmap string text) data fuel,
          fs !! in_file = Some data → cnt_freq in_file fs = (Done freqs, fs) →
          (1 ≤ fuel)%nat →
          huffman_encode fuel in_file out_file fs =
            (Done (), <[out_file := text_of_string
                          (create_header freqs +:+ newline)]> fs))) ∧
  cnt_freq "in" zzzz_fs = (Done zzzz_freqs, zzzz_fs) ∧
  huffman_encode 1 "in" "out" zzzz_fs =
    (Done (), <["out" := text_of_string ("122 4" +:+ newline)]> zzzz_fs).
Proof.
  split_and!; [|by vm_compute..].
  intros freqs Hlen Hone.
  unfold nonzero_count in Hone. rewrite <- (nonzero_from_filter 0) in Hone.
  fold (nonzero_pairs freqs) in Hone.
  destruct (nonzero_pairs freqs) as [|[j f] [|??]] eqn:Hnz; simplify_eq/=.
  assert ((j, f) ∈ nonzero_pairs freqs) as Hin by (rewrite Hnz; left).
  apply elem_of_nonzero_pairs in Hin as (i & -> & Hi & Hf).
  assert (i < 256)%nat as Hi256 by (apply lookup_lt_Some in Hi; lia).
  set (codes := <[i := ""]> (replicate 256 "")).
  assert (create_code (Some (leaf (Z.of_nat i) f)) = Done codes) as Hcode.
  { unfold create_code, leaf, create_code_helper.
    rewrite setitem_in_range; [|rewrite length_replicate; lia].
    by rewrite Nat2Z.id. }
  assert (length codes = 256%nat) as Hclen.
  { unfold codes. by rewrite length_insert, length_replicate. }
  assert (Forall (λ s, s = "") codes) as Hall.
  { unfold codes. apply Forall_insert; [|done]. by apply Forall_replicate. }
  exists i, f, (leaf (Z.of_nat i) f), codes.
  split_and!; [done|done|done| |done|done|done| | |].
  - intros fuel Hfuel. by apply create_huff_tree_single.
  - unfold codes. apply list_lookup_insert_eq. by rewrite length_replicate.
  - intros phrase Hphrase. rewrite encode_loop_spec by done.
    by rewrite payload_empty.
  - intros in_file out_file fs data fuel Hfs Hcnt Hfuel.
    assert (in_alphabet data) as Hdata.
    { rewrite (cnt_freq_existing _ _ _ Hfs) in Hcnt.
      eapply (count_loop_Done data (replicate 256 0)); [done|]. by injection Hcnt. }
    erewrite huffman_encode_run; [| |done|done|by apply create_huff_tree_single|done..];
      [|done].
    by rewrite payload_empty, string_app_nil_r.
Qed.

Lemma single_symbol_tree_and_code_witness :
  length zzzz_freqs = 256%nat ∧ nonzero_count zzzz_freqs = 1%nat ∧
  ∃ (i : nat) f root codes,
    zzzz_freqs !! i = Some f ∧ f ≠ 0 ∧ root = leaf (Z.of_nat i) f ∧
    (∀ fuel, (1 ≤ fuel)%nat → create_huff_tree fuel zzzz_freqs = Done (Some root)) ∧
    create_code (Some root) = Done codes ∧ codes !! i = Some "".
Proof.
  assert (length zzzz_freqs = 256%nat) as Hlen by reflexivity.
  assert (nonzero_count zzzz_freqs = 1%nat) as Hone by reflexivity.
  split_and!; [exact Hlen|exact Hone|].
  destruct single_symbol_tree_and_code as [Hgen _].
  destruct (Hgen zzzz_freqs Hlen Hone)
    as (i & f & root & codes & H1 & H2 & H3 & H4 & _ & _ & H5 & H6 & _).
  exists i, f, root, codes. split_and!; assumption.
Defined.

(** * Further properties *)

(** ** The order *)

(** X1.  comes_before, and with it [<] on nodes, is a strict total order
    of the (weight, symbol id) keys: no node comes before itself, the
    relation is transitive, two nodes are never each before the other, and
    when neither comes before the other they have the same weight and the
    same symbol id.  Comparing a node with None raises AttributeError. *)
Theorem comes_before_strict_total_order :
  (∀ a, comes_before a a = false) ∧
  (∀ a b c, comes_before a b = true → comes_before b c = true →
     comes_before a c = true) ∧
  (∀ a b, comes_before a b = true → comes_before b a = false) ∧
  (∀ a b, comes_before a b = false → comes_before b a = false →
     freq a = freq b ∧ char_ascii a = char_ascii b) ∧
  (∀ a b, HuffmanNode_lt a (Some b) = Done (comes_before a b)) ∧
  (∀ a, HuffmanNode_lt a None = Raised AttributeError).
Proof.
  split_and!; [apply comes_before_irrefl|apply comes_before_trans
              |apply comes_before_asym| |done|done].
  intros a b Hab Hba.
  destruct (decide (key a = key b)) as [E|E].
  - unfold key in E. by simplify_eq.
  - rewrite (comes_before_total a b E Hab) in Hba. done.
Qed.

(** X2.  When two nodes have the same weight and the same symbol id,
    combine makes its second argument the left child and its first the
    right child, so on such a pair it gives the same node in both argument
    orders only when the two nodes are the same. *)
Theorem combine_tie (a b : HuffmanNode) :
  freq a = freq b → char_ascii a = char_ascii b →
  combine a b = mkHuffmanNode (char_ascii a) (freq a + freq a) (Some b) (Some a) ∧
  (combine a b = combine b a → a = b).
Proof.
  intros Hf Hc.
  assert (∀ x y, freq x = freq y → char_ascii x = char_ascii y →
    combine x y = mkHuffmanNode (char_ascii x) (freq x + freq x) (Some y) (Some x))
    as Htie.
  { intros x y Hxf Hxc. unfold combine. rewrite Hxf, Hxc.
    by rewrite !Z.ltb_irrefl, Z.eqb_refl. }
  split; [by apply Htie|].
  rewrite (Htie a b), (Htie b a) by done. by intros [= _ _ _ ->].
Qed.

Lemma combine_tie_witness :
  freq (leaf 1 2) = freq (mkHuffmanNode 1 2 (Some (leaf 1 1)) (Some (leaf 2 1))) ∧
  char_ascii (leaf 1 2) =
    char_ascii (mkHuffmanNode 1 2 (Some (leaf 1 1)) (Some (leaf 2 1))) ∧
  left (combine (leaf 1 2) (mkHuffmanNode 1 2 (Some (leaf 1 1)) (Some (leaf 2 1)))) =
    Some (mkHuffmanNode 1 2 (Some (leaf 1 1)) (Some (leaf 2 1))).
Proof.
  split_and!; [reflexivity|reflexivity|].
  destruct (combine_tie (leaf 1 2)
              (mkHuffmanNode 1 2 (Some (leaf 1 1)) (Some (leaf 2 1)))
              eq_refl eq_refl) as [-> _].
  reflexivity.
Defined.

(** ** cnt_freq *)

(** X3.  Whenever cnt_freq returns a list for a file, the list has 256
    entries, none negative, they add up to the number of characters of the
    file, they are all zero exactly when the file is empty, and the file
    system is as it was. *)
Theorem cnt_freq_totals (filename : string) (fs fs' : gmap string text)
    (data : text) (values : list Z) :
  fs !! filename = Some data →
  cnt_freq filename fs = (Done values, fs') →
  fs' = fs ∧ length values = 256%nat ∧ Forall (Z.le 0) values ∧
  sum values = Z.of_nat (length data) ∧
  (Forall (λ v, v = 0) values ↔ data = []).
Proof.
  intros Hfs Hrun.
  assert (in_alphabet data) as Hdata.
  { rewrite (cnt_freq_existing _ _ _ Hfs) in Hrun.
    eapply (count_loop_Done data (replicate 256 0)); [done|]. by injection Hrun. }
  destruct (cnt_freq_spec fs filename data Hfs Hdata)
    as (values' & Hrun' & Hlen & Hsum & Hpos & _).
  rewrite Hrun' in Hrun. injection Hrun as -> ->.
  split_and!; [done..|].
  rewrite <- (sum_zero_iff _ Hpos), Hsum. destruct data; simpl; [done|].
  split; [lia|done].
Qed.

Lemma cnt_freq_totals_witness :
  abc_fs !! "in" = Some (text_of_string "aaabbbbcc") ∧
  cnt_freq "in" abc_fs = (Done abc_freqs, abc_fs) ∧
  sum abc_freqs = Z.of_nat (length (text_of_string "aaabbbbcc")).
Proof.
  assert (abc_fs !! "in" = Some (text_of_string "aaabbbbcc")) as Hfs by reflexivity.
  assert (cnt_freq "in" abc_fs = (Done abc_freqs, abc_fs)) as Hrun by (by vm_compute).
  split_and!; [exact Hfs|exact Hrun|].
  destruct (cnt_freq_totals "in" abc_fs abc_fs _ abc_freqs Hfs Hrun)
    as (_ & _ & _ & Hsum & _).
  exact Hsum.
Defined.

(** ** create_huff_tree *)

Lemma merge_loop_mono fuel : ∀ fuel' l r,
  (fuel ≤ fuel')%nat → merge_loop fuel l = Done r → merge_loop fuel' l = Done r.
Proof.
  induction fuel as [|fuel IH]; intros fuel' l r Hle; [done|].
  destruct fuel' as [|fuel']; [lia|].
  destruct l as [|a [|b rest]]; [done..|].
  rewrite !merge_loop_step. intros H.
  destruct (huff_helper (S fuel) _) as [l1| |] eqn:E; [|done..].
  rewrite (huff_helper_mono _ (S fuel') _ _ Hle E).
  change (merge_loop fuel' l1 = Done r). change (merge_loop fuel l1 = Done r) in H.
  revert H. apply IH. lia.
Qed.

Lemma create_huff_tree_mono fuel fuel' freqs r :
  (fuel ≤ fuel')%nat →
  create_huff_tree fuel freqs = Done r → create_huff_tree fuel' freqs = Done r.
Proof.
  intros Hle. unfold create_huff_tree.
  destruct (sum freqs =? 0); [done|].
  intros H.
  destruct (huff_helper fuel _) as [l1| |] eqn:E1; [|done..].
  rewrite (huff_helper_mono _ fuel' _ _ Hle E1).
  change (merge_loop fuel l1 ≫= (λ l, getitem l 0 ≫= λ r, Done (Some r)) = Done r) in H.
  change (merge_loop fuel' l1 ≫= (λ l, getitem l 0 ≫= λ r, Done (Some r)) = Done r).
  destruct (merge_loop fuel l1) as [l2| |] eqn:E2; [|done..].
  by rewrite (merge_loop_mono _ fuel' _ _ Hle E2).
Qed.

(** What create_huff_tree returned at some budget is what it returns at
    every budget of at least the length of the table. *)
Lemma create_huff_tree_Some fuel freqs root :
  create_huff_tree fuel freqs = Done (Some root) →
  sum freqs ≠ 0 ∧ full root ∧ tree_inv root ∧
  leaves root ≡ₚ nonzero_pairs freqs ∧
  ∀ fuel', (length freqs ≤ fuel')%nat →
    create_huff_tree fuel' freqs = Done (Some root).
Proof.
  intros Hrun.
  assert (sum freqs ≠ 0) as Hsum.
  { intros Hz. unfold create_huff_tree in Hrun. by rewrite Hz in Hrun. }
  destruct (create_huff_tree_builds freqs Hsum)
    as (root' & Hrun' & Hfull & Htinv & Hleaves & _).
  assert (root' = root) as ->.
  { assert (fuel ≤ fuel `max` length freqs)%nat as Hle by lia.
    pose proof (create_huff_tree_mono _ _ _ _ Hle Hrun) as H1.
    rewrite Hrun' in H1 by lia. by simplify_eq. }
  done.
Qed.

Lemma full_node_count n : full n → (length (nodes n) + 1 = 2 * length (leaves n))%nat.
Proof.
  induction n as [c f l r IHl IHr] using HuffmanNode_tree_ind. intros Hfull.
  destruct l as [l|], r as [r|]; simpl in Hfull; try done.
  destruct Hfull as [Hl Hr]. simpl in IHl, IHr.
  specialize (IHl Hl). specialize (IHr Hr).
  rewrite leaves_node. simpl. rewrite !length_app. lia.
Qed.

(** X4.  Whenever create_huff_tree returns a node, the tree below it is
    full (every node has two children or none), its leaves are exactly the
    symbols with a nonzero count, each once and with its count, so that a
    table with [k] such symbols gives [2 k - 1] nodes, at most 511 for a
    256-entry table; and the symbol id of the root is the least symbol
    with a nonzero count. *)
Theorem create_huff_tree_shape (fuel : nat) (freqs : list Z) (root : HuffmanNode) :
  create_huff_tree fuel freqs = Done (Some root) →
  full root ∧
  leaves root ≡ₚ nonzero_pairs freqs ∧
  (∀ (i : nat) f, (Z.of_nat i, f) ∈ leaves root ↔ freqs !! i = Some f ∧ f ≠ 0) ∧
  NoDup (leaves root).*1 ∧
  (length (nodes root) + 1 = 2 * nonzero_count freqs)%nat ∧
  (length (nodes root) < 2 * length freqs)%nat ∧
  (∃ f, freqs !! Z.to_nat (char_ascii root) = Some f ∧ f ≠ 0) ∧
  (∀ (i : nat) f, freqs !! i = Some f → f ≠ 0 → char_ascii root ≤ Z.of_nat i).
Proof.
  intros Hrun.
  destruct (create_huff_tree_Some _ _ _ Hrun) as (_ & Hfull & Htinv & Hleaves & _).
  destruct (tree_inv_root _ Htinv) as [_ [Hmin_in Hmin_le]].
  pose proof (full_node_count _ Hfull) as Hcount.
  assert (length (leaves root) = nonzero_count freqs) as Hk.
  { rewrite Hleaves. apply nonzero_from_filter. }
  split_and!; [done|done| | | | | |].
  - intros i f. rewrite Hleaves, elem_of_nonzero_pairs. split.
    + intros (k & Hk' & ? & ?). by replace i with k by lia.
    + intros [? ?]. by exists i.
  - rewrite Hleaves. apply nonzero_from_NoDup.
  - lia.
  - pose proof (nonzero_from_length 0 freqs) as Hle.
    fold (nonzero_pairs freqs) in Hle. rewrite <- Hleaves in Hle. lia.
  - rewrite Hleaves in Hmin_in.
    apply list_elem_of_fmap in Hmin_in as ([j g] & -> & Hin).
    apply elem_of_nonzero_pairs in Hin as (k & -> & ? & ?).
    exists g. simpl. by rewrite Nat2Z.id.
  - intros i f Hi Hf. rewrite Forall_forall in Hmin_le. apply Hmin_le.
    rewrite Hleaves. apply list_elem_of_fmap. exists (Z.of_nat i, f).
    split; [done|]. apply elem_of_nonzero_pairs. by exists i.
Qed.

Lemma create_huff_tree_shape_witness :
  create_huff_tree 10 abc_freqs =
    Done (Some (mkHuffmanNode 97 9 (Some (leaf 98 4))
                  (Some (mkHuffmanNode 97 5 (Some (leaf 99 2)) (Some (leaf 97 3)))))) ∧
  full (mkHuffmanNode 97 9 (Some (leaf 98 4))
          (Some (mkHuffmanNode 97 5 (Some (leaf 99 2)) (Some (leaf 97 3))))).
Proof.
  assert (create_huff_tree 10 abc_freqs =
    Done (Some (mkHuffmanNode 97 9 (Some (leaf 98 4))
                  (Some (mkHuffmanNode 97 5 (Some (leaf 99 2)) (Some (leaf 97 3)))))))
    as Hrun by (by vm_compute).
  split; [exact Hrun|].
  destruct (create_huff_tree_shape _ _ _ Hrun) as (Hfull & _). exact Hfull.
Defined.

(** X5.  For every list of integers, negative entries included, and every
    budget of at least the length of the list, create_huff_tree returns:
    None exactly when the entries add up to zero, a node otherwise.  It
    raises nothing, and the recursion of huff_helper stays within as many
    levels as the list has entries. *)
Theorem create_huff_tree_returns (fuel : nat) (freqs : list Z) :
  (length freqs ≤ fuel)%nat →
  (sum freqs = 0 ∧ create_huff_tree fuel freqs = Done None) ∨
  (sum freqs ≠ 0 ∧ ∃ root, create_huff_tree fuel freqs = Done (Some root)).
Proof.
  intros Hfuel. destruct (decide (sum freqs = 0)) as [Hz|Hnz].
  - left. split; [done|]. unfold create_huff_tree. by rewrite Hz.
  - right. split; [done|].
    destruct (create_huff_tree_builds freqs Hnz) as (root & Hrun & _).
    exists root. by apply Hrun.
Qed.

Lemma create_huff_tree_returns_witness :
  (length cancelling ≤ 2)%nat ∧ sum cancelling = 0 ∧
  create_huff_tree 2 cancelling = Done None.
Proof.
  assert (length cancelling ≤ 2)%nat as Hfuel by (simpl; lia).
  split; [exact Hfuel|].
  destruct (create_huff_tree_returns 2 cancelling Hfuel) as [[Hs Hrun]|[Hs _]].
  - split; [exact Hs|exact Hrun].
  - exfalso. apply Hs. reflexivity.
Defined.

(** ** huff_helper *)

Lemma huff_for_length (rec : list HuffmanNode → outcome (list HuffmanNode)) xs :
  (∀ l r, rec l = Done r → length r = length l) →
  ∀ l r, huff_for rec xs l = Done r → length r = length l.
Proof.
  intros Hrec. induction xs as [|x xs IH]; intros l r; simpl.
  { by intros [= <-]. }
  destruct (l !! x) as [a|]; [|done].
  destruct (l !! (x + 1)%nat) as [b|]; [|done].
  destruct (comes_before a b); [apply IH|].
  destruct (rec _) as [l1| |] eqn:E; simpl; [|done..].
  intros H%IH. rewrite H, (Hrec _ _ E). by rewrite !length_insert.
Qed.

(** X6.  huff_helper takes a list with no adjacent pair out of order as it
    is, at any budget of one level or more; so whatever list it returns is
    one it would return unchanged, and has the length of its argument. *)
Theorem huff_helper_fixed_point :
  (∀ fuel l, adjacent_sorted l → huff_helper (S fuel) l = Done l) ∧
  (∀ fuel l r, huff_helper fuel l = Done r →
     length r = length l ∧ ∀ fuel', huff_helper (S fuel') r = Done r).
Proof.
  assert (∀ fuel l, adjacent_sorted l → huff_helper (S fuel) l = Done l) as Hfix.
  { intros fuel l Hs. simpl. apply huff_for_sorted; [done|].
    intros x [_ Hx]%elem_of_seq. lia. }
  split; [done|]. intros fuel l r Hrun. split.
  - revert l r Hrun. induction fuel as [|fuel IH]; intros l r; [done|].
    simpl. by apply huff_for_length.
  - intros fuel'. apply Hfix. by apply huff_helper_returns in Hrun as [_ ?].
Qed.

Lemma huff_helper_fixed_point_witness :
  adjacent_sorted [leaf 0 2; leaf 1 2; leaf 1 3] ∧
  huff_helper 1 [leaf 0 2; leaf 1 2; leaf 1 3] = Done [leaf 0 2; leaf 1 2; leaf 1 3].
Proof.
  assert (adjacent_sorted [leaf 0 2; leaf 1 2; leaf 1 3]) as Hs.
  { intros [|[|[|x]]] a b Ha Hb; simplify_eq/=; reflexivity. }
  split; [exact Hs|].
  destruct huff_helper_fixed_point as [Hfix _]. exact (Hfix 0%nat _ Hs).
Defined.

(** ** huffman_encode and the file system *)

Lemma cnt_freq_fs filename fs : (cnt_freq filename fs).2 = fs.
Proof.
  destruct (fs !! filename) as [data|] eqn:Hfs.
  - by rewrite (cnt_freq_existing _ _ _ Hfs).
  - by rewrite (cnt_freq_missing _ _ Hfs).
Qed.

(** X7.  huffman_encode touches no file but the output file, and writes
    nothing unless it returns normally: when it stops with an exception
    (a missing input, a character outside the table) or runs out of
    budget, the file system is as it was, and the output file has not been
    created. *)
Theorem huffman_encode_frame (fuel : nat) (in_file out_file : string)
    (fs : gmap string text) :
  ((huffman_encode fuel in_file out_file fs).1 ≠ Done () →
     (huffman_encode fuel in_file out_file fs).2 = fs) ∧
  (∀ name, name ≠ out_file →
     (huffman_encode fuel in_file out_file fs).2 !! name = fs !! name) ∧
  ((huffman_encode fuel in_file out_file fs).1 = Done () →
     is_Some ((huffman_encode fuel in_file out_file fs).2 !! out_file)).
Proof.
  unfold huffman_encode, mbind, io_mbind, io_bind, lift.
  pose proof (cnt_freq_fs in_file fs) as Hcnt.
  destruct (cnt_freq in_file fs) as [[freqlist|e|] fs1]; simpl in Hcnt; subst fs1;
    [|by split_and!..].
  destruct (create_huff_tree fuel freqlist) as [[huff|]|e|]; [| |by split_and!..].
  - destruct (create_code (Some huff)) as [code_list|e|]; [|by split_and!..].
    unfold read_file. destruct (fs !! in_file) as [phrase|] eqn:Hin; [|by split_and!].
    destruct (encode_loop phrase code_list "") as [code|e|]; [|by split_and!..].
    unfold open_w, write. simpl. split_and!; [done| |].
    + intros name Hne. by rewrite !lookup_insert_ne.
    + intros _. rewrite lookup_insert_eq. by eexists.
  - unfold open_w. simpl. split_and!; [done| |].
    + intros name Hne. by rewrite lookup_insert_ne.
    + intros _. rewrite lookup_insert_eq. by eexists.
Qed.

Lemma huffman_encode_frame_witness :
  (huffman_encode 10 "in" "out" quote_fs).1 ≠ Done () ∧
  (huffman_encode 10 "in" "out" quote_fs).2 = quote_fs.
Proof.
  assert ((huffman_encode 10 "in" "out" quote_fs).1 ≠ Done ()) as Hfail.
  { vm_compute. discriminate. }
  split; [exact Hfail|].
  destruct (huffman_encode_frame 10 "in" "out" quote_fs) as (Hframe & _).
  exact (Hframe Hfail).
Defined.

(** ** create_code *)

Lemma setitem_cases {A} (l : list A) i v :
  (- Z.of_nat (length l) ≤ i < Z.of_nat (length l) ∧
     ∃ l', setitem l i v = Done l' ∧ length l' = length l) ∨
  (¬ (- Z.of_nat (length l) ≤ i < Z.of_nat (length l)) ∧
     setitem l i v = Raised IndexError).
Proof.
  unfold setitem, py_index.
  destruct (Z.leb_spec 0 i), (Z.ltb_spec i (Z.of_nat (length l))),
    (Z.leb_spec (- Z.of_nat (length l)) i);
    first [ left; split; [lia|]; eexists; split; [done|]; by rewrite length_insert
          | right; split; [lia|done] ].
Qed.

(** The three ways create_code_helper can end. *)
Lemma create_code_helper_cases n : ∀ code pl,
  (full n ∧ ids_in_range (length pl) n ∧
     ∃ pl', create_code_helper n code pl = Done pl' ∧ length pl' = length pl) ∨
  (full n ∧ ¬ ids_in_range (length pl) n ∧
     create_code_helper n code pl = Raised IndexError) ∨
  (¬ full n ∧
     (create_code_helper n code pl = Raised IndexError ∨
      create_code_helper n code pl = Raised AttributeError)).
Proof.
  induction n as [c f l r IHl IHr] using HuffmanNode_tree_ind. intros code pl.
  destruct l as [l|], r as [r|]; simpl in IHl, IHr.
  - change (create_code_helper (mkHuffmanNode c f (Some l) (Some r)) code pl)
      with (create_code_helper l (code +:+ "0") pl ≫=
              λ pl', create_code_helper r (code +:+ "1") pl').
    assert (ids_in_range (length pl) (mkHuffmanNode c f (Some l) (Some r)) ↔
            ids_in_range (length pl) l ∧ ids_in_range (length pl) r) as Hsplit.
    { unfold ids_in_range. by rewrite leaves_node, fmap_app, Forall_app. }
    simpl full. rewrite Hsplit.
    destruct (IHl (code +:+ "0") pl)
      as [(Hfl & Hrl & pl1 & -> & Hlen1)|[(Hfl & Hrl & ->)|(Hfl & Hel)]].
    + simpl. destruct (IHr (code +:+ "1") pl1)
        as [(Hfr & Hrr & pl2 & -> & Hlen2)|[(Hfr & Hrr & ->)|(Hfr & Her)]];
        rewrite ?Hlen1 in *.
      * left. split; [by split|split; [by split|]]. exists pl2. split; [done|lia].
      * right. left. split; [by split|split; [tauto|done]].
      * right. right. split; [tauto|done].
    + simpl. destruct (IHr (code +:+ "1") pl)
        as [(Hfr & _)|[(Hfr & _)|(Hfr & _)]].
      * right. left. split; [by split|split; [tauto|done]].
      * right. left. split; [by split|split; [tauto|done]].
      * right. right. split; [tauto|by left].
    + right. right. split; [tauto|]. by destruct Hel as [->| ->]; [left|right].
  - right. right. split; [by intros []|].
    change (create_code_helper (mkHuffmanNode c f (Some l) None) code pl)
      with (create_code_helper l (code +:+ "0") pl ≫=
              λ _, @Raised (list string) AttributeError).
    destruct (IHl (code +:+ "0") pl)
      as [(_ & _ & pl1 & -> & _)|[(_ & _ & ->)|(_ & [->| ->])]]; simpl; auto.
  - right. right. split; [by intros []|]. right. done.
  - unfold ids_in_range. simpl leaves. rewrite fmap_cons, Forall_singleton. simpl.
    destruct (setitem_cases pl c code) as [(Hr & pl' & -> & Hlen)|(Hr & ->)].
    + left. split; [done|]. split; [done|]. by exists pl'.
    + right. left. split; [done|]. by split.
Qed.

(** X8.  create_code raises AttributeError on None.  On a node it returns
    a table exactly when the tree is full and every leaf id is a valid
    index of a 256-entry list (from -256 up to 255), and the table then has
    256 entries; on a full tree with a leaf id outside that range it raises
    IndexError, and on a tree with a node that has one child only it raises
    IndexError or AttributeError. *)
Theorem create_code_outcome :
  create_code None = Raised AttributeError ∧
  ∀ n : HuffmanNode,
    ((∃ codes, create_code (Some n) = Done codes) ↔ full n ∧ ids_in_range 256 n) ∧
    (∀ codes, create_code (Some n) = Done codes → length codes = 256%nat) ∧
    (full n → ¬ ids_in_range 256 n → create_code (Some n) = Raised IndexError) ∧
    (¬ full n → create_code (Some n) = Raised IndexError ∨
                create_code (Some n) = Raised AttributeError).
Proof.
  split; [done|]. intros n. unfold create_code.
  pose proof (create_code_helper_cases n "" (replicate 256 "")) as Hcases.
  rewrite length_replicate in Hcases.
  destruct Hcases as [(Hf & Hr & pl & Hrun & Hlen)|[(Hf & Hr & Hrun)|(Hf & Hrun)]].
  - split_and!; [|by intros ? [= <-]%(eq_trans (eq_sym Hrun))|done|done].
    split; [done|]. intros _. by exists pl.
  - split_and!; [| |done|done].
    + split; [|tauto]. intros [codes Hc]. congruence.
    + intros codes Hc. congruence.
  - split_and!; [| |done|done].
    + split; [|tauto]. intros [codes Hc]. destruct Hrun; congruence.
    + intros codes Hc. destruct Hrun; congruence.
Qed.

Lemma create_code_outcome_witness :
  ¬ full (mkHuffmanNode 1 1 (Some (leaf 1 1)) None) ∧
  create_code (Some (mkHuffmanNode 1 1 (Some (leaf 1 1)) None)) =
    Raised AttributeError.
Proof.
  assert (¬ full (mkHuffmanNode 1 1 (Some (leaf 1 1)) None)) as Hnf by (intros []).
  split; [exact Hnf|].
  destruct create_code_outcome as [_ Hn].
  destruct (Hn (mkHuffmanNode 1 1 (Some (leaf 1 1)) None)) as (_ & _ & _ & Hcase).
  destruct (Hcase Hnf) as [Hi|Ha]; [discriminate Hi|exact Ha].
Defined.

Lemma string_chars_app s t : string_chars (s +:+ t) = string_chars s ++ string_chars t.
Proof.
  unfold string_chars. induction s as [|c s IH]; [done|].
  rewrite string_app_cons. simpl. by rewrite IH.
Qed.

Lemma binary_app s t : binary s → binary t → binary (s +:+ t).
Proof. unfold binary. rewrite string_chars_app, Forall_app. tauto. Qed.

(** Every path is made of the digits 0 and 1 appended to the code the
    traversal started with. *)
Lemma code_paths_binary n : ∀ code i c,
  binary code → (i, c) ∈ code_paths n code → binary c.
Proof.
  induction n as [c f l r IHl IHr] using HuffmanNode_tree_ind.
  intros code i ci Hcode Hin.
  assert (binary (code +:+ "0") ∧ binary (code +:+ "1")) as [H0 H1].
  { split; (apply binary_app; [done|]); (constructor; [|constructor]); auto. }
  destruct l as [l|], r as [r|]; simpl in *.
  - apply elem_of_app in Hin as [Hin|Hin]; eauto.
  - rewrite (right_id_L [] (++)) in Hin. eauto.
  - eauto.
  - apply list_elem_of_singleton in Hin. by simplify_eq.
Qed.

Lemma leaves_nonempty n : (1 ≤ length (leaves n))%nat.
Proof.
  induction n as [c f l r IHl IHr] using HuffmanNode_tree_ind.
  destruct l as [l|], r as [r|]; simpl in *; rewrite ?length_app; simpl; lia.
Qed.

(** A path is shorter than the number of leaves of the tree. *)
Lemma code_paths_length n : ∀ code i c,
  (i, c) ∈ code_paths n code →
  (String.length code ≤ String.length c)%nat ∧
  (full n → (String.length c + 1 ≤ String.length code + length (leaves n))%nat) ∧
  ((2 ≤ length (leaves n))%nat → (String.length code < String.length c)%nat).
Proof.
  induction n as [c f l r IHl IHr] using HuffmanNode_tree_ind.
  intros code i ci Hin.
  assert (∀ d, String.length (code +:+ d) = (String.length code + String.length d)%nat)
    as Hlen by (intros; apply string_length_app).
  destruct l as [l|], r as [r|]; simpl in IHl, IHr.
  - rewrite leaves_node, length_app.
    pose proof (leaves_nonempty l). pose proof (leaves_nonempty r).
    change (code_paths (mkHuffmanNode c f (Some l) (Some r)) code)
      with (code_paths l (code +:+ "0") ++ code_paths r (code +:+ "1")) in Hin.
    apply elem_of_app in Hin as [Hin|Hin].
    + destruct (IHl _ _ _ Hin) as (H1 & H2 & _). rewrite Hlen in H1, H2. simpl in *.
      split_and!; [lia| |lia]. intros [Hl _]. specialize (H2 Hl). lia.
    + destruct (IHr _ _ _ Hin) as (H1 & H2 & _). rewrite Hlen in H1, H2. simpl in *.
      split_and!; [lia| |lia]. intros [_ Hr]. specialize (H2 Hr). lia.
  - split_and!; [|by intros []|].
    + simpl in Hin. rewrite (right_id_L [] (++)) in Hin.
      destruct (IHl _ _ _ Hin) as (H1 & _). rewrite Hlen in H1. lia.
    + intros _. simpl in Hin. rewrite (right_id_L [] (++)) in Hin.
      destruct (IHl _ _ _ Hin) as (H1 & _). rewrite Hlen in H1. simpl in H1. lia.
  - split_and!; [|by intros []|].
    + simpl in Hin. destruct (IHr _ _ _ Hin) as (H1 & _). rewrite Hlen in H1. lia.
    + intros _. simpl in Hin.
      destruct (IHr _ _ _ Hin) as (H1 & _). rewrite Hlen in H1. simpl in H1. lia.
  - simpl in Hin. apply list_elem_of_singleton in Hin. simplify_eq. simpl.
    split_and!; lia.
Qed.

(** The table create_code returns for a tree create_huff_tree returned on
    a 256-entry table. *)
Lemma code_table_entries fuel freqs root codes :
  length freqs = 256%nat →
  create_huff_tree fuel freqs = Done (Some root) →
  create_code (Some root) = Done codes →
  full root ∧ leaves root ≡ₚ nonzero_pairs freqs ∧ length codes = 256%nat ∧
  (∀ (i : nat) f, freqs !! i = Some f → f ≠ 0 →
     ∃ c, (Z.of_nat i, c) ∈ code_paths root "" ∧ codes !! i = Some c) ∧
  (∀ (i : nat) f, freqs !! i = Some f → f = 0 → codes !! i = Some "").
Proof.
  intros Hlen Htree Hcode.
  destruct (create_huff_tree_Some _ _ _ Htree) as (_ & Hfull & _ & Hleaves & _).
  destruct (create_code_root freqs root Hlen Hfull Hleaves)
    as (codes' & Hcode' & Hclen & Hpaths & Hother).
  assert (codes' = codes) as -> by congruence.
  split_and!; [done..| |].
  - intros i f Hi Hf.
    assert (Z.of_nat i ∈ (code_paths root "").*1) as Hin.
    { rewrite code_paths_ids, Hleaves. apply list_elem_of_fmap.
      exists (Z.of_nat i, f). split; [done|]. apply elem_of_nonzero_pairs. by exists i. }
    apply list_elem_of_fmap in Hin as ([i' c] & Hi' & Hin). simpl in Hi'. subst i'.
    exists c. split; [done|]. rewrite <- (Nat2Z.id i) at 1. by apply Hpaths.
  - intros i f Hi ->. rewrite Hother.
    + apply lookup_replicate_2. apply lookup_lt_Some in Hi. lia.
    + intros j Hj Hji. rewrite Hleaves in Hj.
      apply list_elem_of_fmap in Hj as ([j' g] & -> & Hin).
      apply elem_of_nonzero_pairs in Hin as (k & -> & Hk & Hg).
      simpl in Hji. rewrite Nat2Z.id in Hji. subst k. congruence.
Qed.

(** X9.  In the table create_code returns for the tree of a 256-entry
    frequency table there are 256 codes; the code of a symbol with count
    zero is the empty string; every code is a string of the digits 0 and 1
    and is shorter than the number of symbols with a nonzero count; and
    when there are two or more such symbols, the code of each of them is
    not empty. *)
Theorem code_table_contents (fuel : nat) (freqs : list Z) (root : HuffmanNode)
    (codes : list string) :
  length freqs = 256%nat →
  create_huff_tree fuel freqs = Done (Some root) →
  create_code (Some root) = Done codes →
  length codes = 256%nat ∧
  (∀ (i : nat) f, freqs !! i = Some f → f = 0 → codes !! i = Some "") ∧
  (∀ (i : nat) c, codes !! i = Some c →
     binary c ∧ (String.length c < nonzero_count freqs)%nat) ∧
  ((2 ≤ nonzero_count freqs)%nat →
     ∀ (i : nat) f, freqs !! i = Some f → f ≠ 0 →
       ∃ c, codes !! i = Some c ∧ c ≠ "").
Proof.
  intros Hlen Htree Hcode.
  destruct (code_table_entries _ _ _ _ Hlen Htree Hcode)
    as (Hfull & Hleaves & Hclen & Hused & Hunused).
  assert (length (leaves root) = nonzero_count freqs) as Hk.
  { rewrite Hleaves. apply nonzero_from_filter. }
  pose proof (leaves_nonempty root) as Hk1.
  split_and!; [done|done| |].
  - intros i c Hi.
    assert (i < length freqs)%nat as Hlt by (apply lookup_lt_Some in Hi; lia).
    destruct (lookup_lt_is_Some_2 freqs i Hlt) as [f Hf].
    destruct (decide (f = 0)) as [Hz|Hnz].
    + rewrite (Hunused i f Hf Hz) in Hi. simplify_eq. split; [constructor|simpl; lia].
    + destruct (Hused i f Hf Hnz) as (c' & Hin & Hc'). simplify_eq. split.
      * eapply code_paths_binary; [|exact Hin]. constructor.
      * destruct (code_paths_length _ _ _ _ Hin) as (_ & Hlen' & _).
        specialize (Hlen' Hfull). simpl in Hlen'. lia.
  - intros Htwo i f Hf Hnz.
    destruct (Hused i f Hf Hnz) as (c & Hin & Hc). exists c. split; [done|].
    destruct (code_paths_length _ _ _ _ Hin) as (_ & _ & Hpos).
    rewrite Hk in Hpos. specialize (Hpos Htwo). intros ->. simpl in Hpos. lia.
Qed.

Lemma code_table_contents_witness :
  length abc_freqs = 256%nat ∧
  create_huff_tree 10 abc_freqs = Done (Some abc_root) ∧
  create_code (Some abc_root) = Done abc_codes ∧
  length abc_codes = 256%nat ∧
  (∀ (i : nat) c, abc_codes !! i = Some c →
     binary c ∧ (String.length c < nonzero_count abc_freqs)%nat).
Proof.
  assert (length abc_freqs = 256%nat) as Hlen by reflexivity.
  assert (create_huff_tree 10 abc_freqs = Done (Some abc_root)) as Htree
    by (by vm_compute).
  assert (create_code (Some abc_root) = Done abc_codes) as Hcode by (by vm_compute).
  destruct (code_table_contents _ _ _ _ Hlen Htree Hcode) as (H1 & _ & H3 & _).
  split_and!; [exact Hlen|exact Htree|exact Hcode|exact H1|exact H3].
Defined.

(** ** The payload *)

Lemma string_app_prefix s1 : ∀ t1 s2 t2,
  s1 +:+ t1 = s2 +:+ t2 → is_prefix s1 s2 ∨ is_prefix s2 s1.
Proof.
  induction s1 as [|a s1 IH]; intros t1 s2 t2 H.
  { left. by exists s2. }
  destruct s2 as [|b s2].
  { right. by exists (String a s1). }
  rewrite !string_app_cons in H. injection H as -> H.
  destruct (IH _ _ _ H) as [[k ->]|[k ->]]; [left|right]; by exists k.
Qed.

Lemma string_app_nil s t : s +:+ t = "" → s = "".
Proof. by destruct s. Qed.

Lemma payload_cons codes c data :
  payload codes (c :: data) =
  default "" (codes !! N.to_nat c) +:+ payload codes data.
Proof. done. Qed.

(** A code list is read back in one way only when the codes of the symbols
    in use are not empty and none is a prefix of another. *)
Lemma payload_unique_codes (codes : list string) (used : N → Prop) :
  (∀ c, used c → ∃ code, codes !! N.to_nat c = Some code ∧ code ≠ "") →
  (∀ c1 c2 code1 code2, used c1 → used c2 →
     codes !! N.to_nat c1 = Some code1 → codes !! N.to_nat c2 = Some code2 →
     is_prefix code1 code2 → c1 = c2) →
  ∀ p1 p2 : text, Forall used p1 → Forall used p2 →
    payload codes p1 = payload codes p2 → p1 = p2.
Proof.
  intros Hcodes Hfree p1.
  induction p1 as [|c1 p1 IH]; intros p2 Hu1 Hu2 Heq.
  - destruct p2 as [|c2 p2]; [done|]. exfalso.
    apply Forall_cons in Hu2 as [Hc2 _].
    destruct (Hcodes c2 Hc2) as (code & Hc & Hne).
    rewrite payload_cons, Hc in Heq. simpl in Heq.
    symmetry in Heq. by apply string_app_nil in Heq.
  - apply Forall_cons in Hu1 as [Hc1 Hu1].
    destruct (Hcodes c1 Hc1) as (code1 & Hl1 & Hne1).
    destruct p2 as [|c2 p2].
    { exfalso. rewrite payload_cons, Hl1 in Heq. simpl in Heq.
      by apply string_app_nil in Heq. }
    apply Forall_cons in Hu2 as [Hc2 Hu2].
    destruct (Hcodes c2 Hc2) as (code2 & Hl2 & Hne2).
    rewrite !payload_cons, Hl1, Hl2 in Heq. simpl in Heq.
    assert (c1 = c2) as ->.
    { destruct (string_app_prefix _ _ _ _ Heq) as [Hpre|Hpre].
      - by eapply (Hfree c1 c2).
      - symmetry. by eapply (Hfree c2 c1). }
    assert (code1 = code2) as -> by congruence.
    apply (inj (String.app code2)) in Heq. f_equal. by apply IH.
Qed.

(** The codes of the symbols with a nonzero count, when there are two or
    more of them: not empty, and none a prefix of another. *)
Lemma code_table_prefix_codes fuel freqs root codes :
  length freqs = 256%nat → (2 ≤ nonzero_count freqs)%nat →
  create_huff_tree fuel freqs = Done (Some root) →
  create_code (Some root) = Done codes →
  (∀ c : N, (∃ f, freqs !! N.to_nat c = Some f ∧ f ≠ 0) →
     ∃ code, codes !! N.to_nat c = Some code ∧ code ≠ "") ∧
  (∀ (c1 c2 : N) code1 code2,
     (∃ f, freqs !! N.to_nat c1 = Some f ∧ f ≠ 0) →
     (∃ f, freqs !! N.to_nat c2 = Some f ∧ f ≠ 0) →
     codes !! N.to_nat c1 = Some code1 → codes !! N.to_nat c2 = Some code2 →
     is_prefix code1 code2 → c1 = c2).
Proof.
  intros Hlen Htwo Htree Hcode.
  destruct (code_table_entries _ _ _ _ Hlen Htree Hcode)
    as (Hfull & Hleaves & Hclen & Hused & _).
  assert (length (leaves root) = nonzero_count freqs) as Hk.
  { rewrite Hleaves. apply nonzero_from_filter. }
  split.
  - intros c (f & Hf & Hnz). destruct (Hused _ f Hf Hnz) as (code & Hin & Hc).
    exists code. split; [done|].
    destruct (code_paths_length _ _ _ _ Hin) as (_ & _ & Hpos).
    rewrite Hk in Hpos. specialize (Hpos Htwo). intros ->. simpl in Hpos. lia.
  - intros c1 c2 code1 code2 (f1 & Hf1 & Hnz1) (f2 & Hf2 & Hnz2) Hc1 Hc2 Hpre.
    destruct (Hused _ f1 Hf1 Hnz1) as (code1' & Hin1 & Hc1').
    destruct (Hused _ f2 Hf2 Hnz2) as (code2' & Hin2 & Hc2').
    assert (code1' = code1) as -> by congruence.
    assert (code2' = code2) as -> by congruence.
    destruct (decide (c1 = c2)) as [|Hne]; [done|]. exfalso.
    eapply (code_paths_prefix_free root); [exact Hin1|exact Hin2|lia|exact Hpre].
Qed.

(** X10.  The payload can be read back in one way only: with the code
    table of a 256-entry frequency table that has two or more nonzero
    counts, two texts over the symbols with a nonzero count that have the
    same payload are the same text. *)
Theorem payload_injective (fuel : nat) (freqs : list Z) (root : HuffmanNode)
    (codes : list string) (p1 p2 : text) :
  length freqs = 256%nat → (2 ≤ nonzero_count freqs)%nat →
  create_huff_tree fuel freqs = Done (Some root) →
  create_code (Some root) = Done codes →
  uses freqs p1 → uses freqs p2 →
  payload codes p1 = payload codes p2 → p1 = p2.
Proof.
  intros Hlen Htwo Htree Hcode Hu1 Hu2 Hpay.
  destruct (code_table_prefix_codes _ _ _ _ Hlen Htwo Htree Hcode) as [Hne Hfree].
  revert Hu1 Hu2 Hpay. unfold uses.
  apply (payload_unique_codes codes
           (λ c, ∃ f, freqs !! N.to_nat c = Some f ∧ f ≠ 0)); assumption.
Qed.

Lemma payload_injective_witness :
  length abc_freqs = 256%nat ∧ (2 ≤ nonzero_count abc_freqs)%nat ∧
  create_huff_tree 10 abc_freqs = Done (Some abc_root) ∧
  create_code (Some abc_root) = Done abc_codes ∧
  uses abc_freqs [97%N; 98%N] ∧ uses abc_freqs [98%N; 97%N] ∧
  payload abc_codes [97%N; 98%N] ≠ payload abc_codes [98%N; 97%N].
Proof.
  assert (length abc_freqs = 256%nat) as Hlen by reflexivity.
  assert (2 ≤ nonzero_count abc_freqs)%nat as Htwo by (vm_compute; lia).
  assert (create_huff_tree 10 abc_freqs = Done (Some abc_root)) as Htree
    by (by vm_compute).
  assert (create_code (Some abc_root) = Done abc_codes) as Hcode by (by vm_compute).
  assert (uses abc_freqs [97%N; 98%N]) as Hu1.
  { repeat constructor; eexists; (split; [reflexivity|discriminate]). }
  assert (uses abc_freqs [98%N; 97%N]) as Hu2.
  { repeat constructor; eexists; (split; [reflexivity|discriminate]). }
  split_and!; [exact Hlen|exact Htwo|exact Htree|exact Hcode|exact Hu1|exact Hu2|].
  intros Heq.
  pose proof (payload_injective _ _ _ _ _ _ Hlen Htwo Htree Hcode Hu1 Hu2 Heq) as E.
  discriminate E.
Defined.

Lemma weighted_length_zero n codes : weighted_length (replicate n 0) codes = 0.
Proof.
  unfold weighted_length. revert codes.
  induction n as [|n IH]; intros [|code codes]; simpl; try done.
  unfold sum in *. simpl. by rewrite IH.
Qed.

Lemma weighted_length_insert values : ∀ codes k v code,
  values !! k = Some v → codes !! k = Some code →
  weighted_length (<[k := v + 1]> values) codes =
  weighted_length values codes + Z.of_nat (String.length code).
Proof.
  unfold weighted_length, sum.
  induction values as [|x values IH]; intros [|y codes] [|k] v code Hv Hc;
    simplify_eq/=; [lia|].
  rewrite (IH _ _ _ _ Hv Hc). lia.
Qed.

Lemma count_loop_weighted codes data : ∀ values values',
  length values = length codes → count_loop data values = Done values' →
  weighted_length values' codes =
  weighted_length values codes + Z.of_nat (String.length (payload codes data)).
Proof.
  induction data as [|c data IH]; intros values values' Hlen.
  { intros [= <-]. simpl. lia. }
  simpl count_loop.
  destruct (getitem values (ord c)) as [v| |] eqn:Hget; [|done..].
  pose proof (getitem_Done_range _ _ _ Hget) as Hr.
  assert (0 ≤ ord c < Z.of_nat (length values)) as Hr' by (unfold ord in *; lia).
  destruct (getitem_in_range values (ord c) Hr') as (v' & Hv & Hget').
  assert (v' = v) as -> by congruence.
  intros Hrun. simpl in Hrun.
  rewrite (setitem_in_range _ _ _ Hr') in Hrun. simpl in Hrun.
  apply IH in Hrun; [|by rewrite length_insert].
  destruct (lookup_lt_is_Some_2 codes (Z.to_nat (ord c))) as [code Hcode]; [lia|].
  rewrite Hrun, (weighted_length_insert _ _ _ _ _ Hv Hcode), payload_cons.
  replace (N.to_nat c) with (Z.to_nat (ord c)) by (unfold ord; lia).
  rewrite Hcode, string_length_app. simpl. lia.
Qed.

Lemma payload_binary codes data :
  Forall binary codes → binary (payload codes data).
Proof.
  intros Hall. induction data as [|c data IH]; [constructor|].
  rewrite payload_cons. apply binary_app; [|done].
  destruct (codes !! N.to_nat c) as [code|] eqn:E; [|constructor].
  by apply (Forall_lookup_1 _ _ _ _ Hall E).
Qed.

(** X11.  For a file whose counts cnt_freq returned and any table of 256
    codes, the loop of huffman_encode returns a payload whose length is
    the sum, over the 256 symbols, of count times code length; when the
    codes are strings of the digits 0 and 1, so is the payload. *)
Theorem payload_size (filename : string) (fs fs' : gmap string text)
    (data : text) (freqs : list Z) (codes : list string) :
  fs !! filename = Some data →
  cnt_freq filename fs = (Done freqs, fs') →
  length codes = 256%nat →
  ∃ code, encode_loop data codes "" = Done code ∧
    Z.of_nat (String.length code) = weighted_length freqs codes ∧
    (Forall binary codes → binary code).
Proof.
  intros Hfs Hcnt Hlen.
  rewrite (cnt_freq_existing _ _ _ Hfs) in Hcnt.
  assert (count_loop data (replicate 256 0) = Done freqs) as Hrun by by injection Hcnt.
  assert (in_alphabet data) as Hdata.
  { by eapply (count_loop_Done data (replicate 256 0)). }
  exists (payload codes data). split_and!.
  - by rewrite encode_loop_spec.
  - rewrite (count_loop_weighted codes data _ _ ltac:(by rewrite length_replicate) Hrun).
    rewrite weighted_length_zero. lia.
  - apply payload_binary.
Qed.

Lemma payload_size_witness :
  abc_fs !! "in" = Some (text_of_string "aaabbbbcc") ∧
  cnt_freq "in" abc_fs = (Done abc_freqs, abc_fs) ∧
  length abc_codes = 256%nat ∧
  ∃ code, encode_loop (text_of_string "aaabbbbcc") abc_codes "" = Done code ∧
    Z.of_nat (String.length code) = weighted_length abc_freqs abc_codes.
Proof.
  assert (abc_fs !! "in" = Some (text_of_string "aaabbbbcc")) as Hfs by reflexivity.
  assert (cnt_freq "in" abc_fs = (Done abc_freqs, abc_fs)) as Hrun by (by vm_compute).
  assert (length abc_codes = 256%nat) as Hlen by reflexivity.
  split_and!; [exact Hfs|exact Hrun|exact Hlen|].
  destruct (payload_size "in" abc_fs abc_fs _ abc_freqs abc_codes Hfs Hrun Hlen)
    as (code & H1 & H2 & _).
  exists code. split; assumption.
Defined.

(** ** The header *)

Lemma pretty_N_char_number x : number_char (pretty_N_char x).
Proof.
  unfold number_char, pretty_N_char. right. repeat case_match; simpl; lia.
Qed.

Lemma pretty_N_go_chars x : ∀ s,
  Forall number_char (string_chars s) →
  Forall number_char (string_chars (pretty_N_go x s)).
Proof.
  induction (N.lt_wf_0 x) as [x _ IH]; intros s Hs.
  assert (x = 0 ∨ 0 < x)%N as [->|Hpos] by lia.
  - by rewrite pretty_N_go_0.
  - rewrite pretty_N_go_step by done. apply IH.
    + by apply N.div_lt.
    + constructor; [apply pretty_N_char_number|done].
Qed.

Lemma pretty_N_chars (x : N) : Forall number_char (string_chars (pretty x)).
Proof.
  unfold pretty, pretty_N. case_decide.
  - constructor; [|constructor]. right. simpl. lia.
  - apply pretty_N_go_chars. constructor.
Qed.

(** [str] of an integer is made of digits and, in front of a negative
    number, a minus sign. *)
Lemma str_chars z : Forall number_char (string_chars (str z)).
Proof.
  unfold str, pretty, pretty_Z. destruct z as [|p|p].
  - constructor; [|constructor]. right. simpl. lia.
  - apply (pretty_N_chars (Npos p)).
  - rewrite string_chars_app. apply Forall_app. split.
    + constructor; [|constructor]. by left.
    + apply (pretty_N_chars (Npos p)).
Qed.

Lemma number_char_not_space : ¬ number_char " ".
Proof. intros [?|[? ?]]; [done|]. simpl in *. lia. Qed.

Lemma str_no_space z : " "%char ∉ string_chars (str z).
Proof.
  intros Hin. pose proof (str_chars z) as Hall. rewrite Forall_forall in Hall.
  by apply number_char_not_space, Hall.
Qed.

(** Two strings cut at the first occurrence of a separator. *)
Lemma split_at_sep (sep : ascii) s1 : ∀ r1 s2 r2,
  sep ∉ string_chars s1 → sep ∉ string_chars s2 →
  s1 +:+ String sep r1 = s2 +:+ String sep r2 → s1 = s2 ∧ r1 = r2.
Proof.
  induction s1 as [|a s1 IH]; intros r1 s2 r2 H1 H2 Heq.
  - destruct s2 as [|b s2].
    + by injection Heq.
    + rewrite string_app_cons in Heq. injection Heq as <- _.
      exfalso. apply H2. left.
  - destruct s2 as [|b s2]; rewrite ?string_app_cons in Heq.
    + injection Heq as -> _. exfalso. apply H1. left.
    + injection Heq as -> Heq.
      destruct (IH r1 s2 r2) as [-> ->]; [| |done|done].
      * intros Hin. apply H1. by right.
      * intros Hin. apply H2. by right.
Qed.

Lemma spaced_cons p ps :
  spaced (p :: ps) = str p.1 +:+ String " " (str p.2 +:+ String " " (spaced ps)).
Proof. simpl. unfold pair_text. by rewrite !string_app_assoc. Qed.

Lemma spaced_inj ps1 : ∀ ps2, spaced ps1 = spaced ps2 → ps1 = ps2.
Proof.
  induction ps1 as [|[i1 f1] ps1 IH]; intros [|[i2 f2] ps2]; [done|..].
  - rewrite spaced_cons. intros H. symmetry in H.
    apply string_app_nil in H as Hs. rewrite Hs in H. done.
  - rewrite spaced_cons. intros H.
    apply string_app_nil in H as Hs. rewrite Hs in H. done.
  - rewrite !spaced_cons. simpl. intros H.
    apply split_at_sep in H as [Hi H]; [|apply str_no_space..].
    apply split_at_sep in H as [Hf H]; [|apply str_no_space..].
    apply (inj pretty) in Hi, Hf. subst. f_equal. by apply IH.
Qed.

Lemma nonzero_pairs_inj f1 f2 :
  length f1 = length f2 → nonzero_pairs f1 = nonzero_pairs f2 → f1 = f2.
Proof.
  intros Hlen Hnz. apply list_eq. intros k.
  destruct (f1 !! k) as [g1|] eqn:E1.
  - destruct (lookup_lt_is_Some_2 f2 k) as [g2 E2].
    { rewrite <- Hlen. by eapply lookup_lt_Some. }
    rewrite E2. f_equal.
    destruct (decide (g1 = 0)) as [->|Hg1].
    + destruct (decide (g2 = 0)) as [->|Hg2]; [done|].
      assert ((Z.of_nat k, g2) ∈ nonzero_pairs f1) as Hin.
      { rewrite Hnz. apply elem_of_nonzero_pairs. by exists k. }
      apply elem_of_nonzero_pairs in Hin as (k' & Hk & Hk' & ?).
      replace k' with k in Hk' by lia. congruence.
    + assert ((Z.of_nat k, g1) ∈ nonzero_pairs f2) as Hin.
      { rewrite <- Hnz. apply elem_of_nonzero_pairs. by exists k. }
      apply elem_of_nonzero_pairs in Hin as (k' & Hk & Hk' & ?).
      replace k' with k in Hk' by lia. congruence.
  - symmetry. apply lookup_ge_None. rewrite <- Hlen. by apply lookup_ge_None.
Qed.

(** The header, followed by a space, is what the loop built, unless the
    loop built nothing. *)
Lemma create_header_spaced freqs :
  (nonzero_pairs freqs = [] ∧ create_header freqs = "") ∨
  (nonzero_pairs freqs ≠ [] ∧
   spaced (nonzero_pairs freqs) = create_header freqs +:+ " ").
Proof.
  rewrite create_header_spec. destruct (nonzero_pairs freqs) as [|p ps].
  - by left.
  - right. split; [done|]. apply spaced_concat.
Qed.

Lemma create_header_inj f1 f2 :
  create_header f1 = create_header f2 → nonzero_pairs f1 = nonzero_pairs f2.
Proof.
  intros Heq.
  assert (∀ f, nonzero_pairs f ≠ [] → create_header f ≠ "") as Hne.
  { intros f Hf Hh. destruct (create_header_spaced f) as [[? _]|[_ Hsp]]; [done|].
    rewrite Hh in Hsp. destruct (nonzero_pairs f) as [|p ps]; [done|].
    rewrite spaced_cons in Hsp.
    apply (split_at_sep " " _ _ "" "") in Hsp as [_ Hsp];
      [|apply str_no_space|by intros ?%elem_of_nil].
    by apply string_app_nil in Hsp as Hs; rewrite Hs in Hsp. }
  destruct (create_header_spaced f1) as [[E1 H1]|[E1 H1]],
    (create_header_spaced f2) as [[E2 H2]|[E2 H2]].
  - congruence.
  - exfalso. apply (Hne f2 E2). congruence.
  - exfalso. apply (Hne f1 E1). congruence.
  - apply spaced_inj. congruence.
Qed.

Lemma spaced_chars ps : Forall header_char (string_chars (spaced ps)).
Proof.
  induction ps as [|p ps IH]; [constructor|].
  rewrite spaced_cons.
  assert (∀ z, Forall header_char (string_chars (str z))) as Hstr.
  { intros z. eapply Forall_impl; [apply str_chars|]. intros a Ha. by right. }
  rewrite string_chars_app. apply Forall_app. split; [apply Hstr|].
  constructor; [by left|].
  rewrite string_chars_app. apply Forall_app. split; [apply Hstr|].
  constructor; [by left|done].
Qed.

Lemma create_header_chars freqs :
  Forall header_char (string_chars (create_header freqs)).
Proof.
  destruct (create_header_spaced freqs) as [[_ ->]|[_ Hsp]]; [constructor|].
  pose proof (spaced_chars (nonzero_pairs freqs)) as Hall.
  rewrite Hsp, string_chars_app in Hall. by apply Forall_app in Hall as [? _].
Qed.

Lemma header_char_not_newline : ¬ header_char newline_char.
Proof. intros [?|[?|[? ?]]]; [done|done|]. simpl in *. lia. Qed.

Lemma create_header_no_newline freqs :
  newline_char ∉ string_chars (create_header freqs).
Proof.
  intros Hin. pose proof (create_header_chars freqs) as Hall.
  rewrite Forall_forall in Hall. by apply header_char_not_newline, Hall.
Qed.

(** X12.  For every list of integers, the header create_header returns is
    made of decimal digits, minus signs and spaces only, so it holds no
    newline; and it is the empty string exactly when
    no entry is nonzero. *)
Theorem create_header_characters (freqs : list Z) :
  Forall header_char (string_chars (create_header freqs)) ∧
  (newline_char ∉ string_chars (create_header freqs)) ∧
  (create_header freqs = "" ↔ Forall (λ f, f = 0) freqs).
Proof.
  split_and!; [apply create_header_chars|apply create_header_no_newline|].
  rewrite <- (nonzero_from_nil 0). fold (nonzero_pairs freqs).
  destruct (create_header_spaced freqs) as [[E H]|[E H]].
  - by rewrite E, H.
  - split; [|done]. intros Hh. rewrite Hh in H. exfalso.
    destruct (nonzero_pairs freqs) as [|p ps]; [done|].
    rewrite spaced_cons in H.
    apply (split_at_sep " " _ _ "" "") in H as [_ H];
      [|apply str_no_space|by intros ?%elem_of_nil].
    by apply string_app_nil in H as Hs; rewrite Hs in H.
Qed.

(** X13.  The header determines the nonzero entries of the table: two
    lists of integers with the same header have the same nonzero entries
    at the same places, and are the same list when they have the same
    length. *)
Theorem create_header_determines_table (f1 f2 : list Z) :
  create_header f1 = create_header f2 →
  (∀ (i : nat) g, g ≠ 0 → (f1 !! i = Some g ↔ f2 !! i = Some g)) ∧
  (length f1 = length f2 → f1 = f2).
Proof.
  intros Hnz%create_header_inj. split.
  - assert (∀ fa fb, nonzero_pairs fa = nonzero_pairs fb →
      ∀ (i : nat) g, g ≠ 0 → fa !! i = Some g → fb !! i = Some g) as Hdir.
    { intros fa fb Hab i g Hg Hi.
      assert ((Z.of_nat i, g) ∈ nonzero_pairs fb) as Hin.
      { rewrite <- Hab. apply elem_of_nonzero_pairs. by exists i. }
      apply elem_of_nonzero_pairs in Hin as (k & Hk & Hk' & _).
      by replace i with k by lia. }
    intros i g Hg. split; by apply Hdir.
  - intros Hlen. by apply nonzero_pairs_inj.
Qed.

Lemma create_header_determines_table_witness :
  create_header abc_freqs = create_header abc_short ∧
  ∀ (i : nat) g, g ≠ 0 →
    (abc_freqs !! i = Some g ↔ abc_short !! i = Some g).
Proof.
  assert (create_header abc_freqs = create_header abc_short)
    as Heq by (by vm_compute).
  split; [exact Heq|].
  destruct (create_header_determines_table _ _ Heq) as [H _]. exact H.
Defined.

(** ** Reading the output back *)

Lemma text_of_string_inj s : ∀ t, text_of_string s = text_of_string t → s = t.
Proof.
  unfold text_of_string.
  induction s as [|a s IH]; intros [|b t] H; simplify_eq/=; [done|].
  f_equal; [|by apply IH].
  rewrite <- (Ascii.ascii_N_embedding a), <- (Ascii.ascii_N_embedding b). congruence.
Qed.

Lemma text_of_string_newline s t :
  text_of_string (s +:+ newline +:+ t) ≠ [].
Proof.
  rewrite text_of_string_app. unfold newline. rewrite string_app_cons.
  destruct (text_of_string s); done.
Qed.

Lemma occurrences_pos c data :
  c ∈ data → 0 < occurrences (N.to_nat c) data.
Proof.
  unfold occurrences. induction 1 as [c data|c d data Hin IH];
    rewrite filter_cons; case_decide; simpl; lia.
Qed.

Lemma counts_uses freqs data :
  (∀ i, (i < 256)%nat → freqs !! i = Some (occurrences i data)) →
  in_alphabet data → uses freqs data.
Proof.
  intros Hocc Hdata. apply Forall_forall. intros c Hc.
  exists (occurrences (N.to_nat c) data). split.
  - apply Hocc. unfold in_alphabet in Hdata. rewrite Forall_forall in Hdata.
    specialize (Hdata c Hc). lia.
  - pose proof (occurrences_pos c data Hc). lia.
Qed.

(** What huffman_encode leaves in the output file. *)
Lemma huffman_encode_content fuel in_file out_file fs data :
  fs !! in_file = Some data → in_alphabet data → (256 ≤ fuel)%nat →
  (data = [] ∧
   (huffman_encode fuel in_file out_file fs).2 !! out_file = Some []) ∨
  (data ≠ [] ∧ ∃ freqs root codes,
     length freqs = 256%nat ∧ sum freqs = Z.of_nat (length data) ∧
     uses freqs data ∧
     create_huff_tree 256 freqs = Done (Some root) ∧
     create_code (Some root) = Done codes ∧
     (huffman_encode fuel in_file out_file fs).2 !! out_file =
       Some (text_of_string
               (create_header freqs +:+ newline +:+ payload codes data))).
Proof.
  intros Hfs Hdata Hfuel. destruct (decide (data = [])) as [->|Hne].
  - left. split; [done|].
    assert (cnt_freq in_file fs = (Done (replicate 256 0), fs)) as Hcnt.
    { by rewrite (cnt_freq_existing _ _ _ Hfs). }
    assert (create_huff_tree fuel (replicate 256 0) = Done None) as Htree.
    { unfold create_huff_tree.
      by replace (sum (replicate 256 0)) with 0 by by vm_compute. }
    unfold huffman_encode, mbind, io_mbind, io_bind, lift.
    rewrite Hcnt, Htree. unfold open_w. simpl. by rewrite lookup_insert_eq.
  - right. split; [done|].
    destruct (huffman_encode_spec in_file out_file fs data Hfs Hne Hdata)
      as (freqs & root & codes & Hcnt & Hlen & Hocc & Hcode & _ & Hrun).
    destruct (cnt_freq_spec fs in_file data Hfs Hdata)
      as (freqs' & Hcnt' & _ & Hsum & _).
    assert (freqs' = freqs) as -> by congruence.
    exists freqs, root, codes.
    destruct (Hrun fuel Hfuel) as [_ ->]. destruct (Hrun 256%nat) as [Htree _]; [lia|].
    split_and!; [done|done|by apply counts_uses|done|done|].
    simpl. by rewrite lookup_insert_eq.
Qed.

Lemma single_symbol_text freqs data i f :
  nonzero_pairs freqs = [(i, f)] → uses freqs data →
  Forall (λ c, Z.of_N c = i) data.
Proof.
  intros Hnz Hu. eapply Forall_impl; [exact Hu|]. intros c (g & Hg & Hne). simpl.
  assert ((Z.of_nat (N.to_nat c), g) ∈ nonzero_pairs freqs) as Hin.
  { apply elem_of_nonzero_pairs. by exists (N.to_nat c). }
  rewrite Hnz in Hin. apply list_elem_of_singleton in Hin. simplify_eq. lia.
Qed.

Lemma all_same_text (i : Z) (d1 : text) : ∀ d2 : text,
  Forall (λ c, Z.of_N c = i) d1 → Forall (λ c, Z.of_N c = i) d2 →
  length d1 = length d2 → d1 = d2.
Proof.
  induction d1 as [|c1 d1 IH]; intros [|c2 d2] H1 H2 Hlen; simplify_eq/=; [done|].
  apply Forall_cons in H1 as [E1 H1]. apply Forall_cons in H2 as [E2 H2].
  f_equal; [lia|by apply IH].
Qed.

(** Two texts that give the same header and the same payload. *)
Lemma same_output_same_text freqs root codes (d1 d2 : text) :
  length freqs = 256%nat →
  create_huff_tree 256 freqs = Done (Some root) →
  create_code (Some root) = Done codes →
  uses freqs d1 → uses freqs d2 →
  sum freqs = Z.of_nat (length d1) → sum freqs = Z.of_nat (length d2) →
  payload codes d1 = payload codes d2 → d1 = d2.
Proof.
  intros Hlen Htree Hcode Hu1 Hu2 Hs1 Hs2 Hpay.
  destruct (decide (2 ≤ nonzero_count freqs)%nat) as [Htwo|Hfew].
  { destruct (code_table_prefix_codes _ _ _ _ Hlen Htwo Htree Hcode) as [Hne Hfree].
    revert Hu1 Hu2 Hpay. unfold uses.
    apply (payload_unique_codes codes
             (λ c, ∃ f, freqs !! N.to_nat c = Some f ∧ f ≠ 0)); assumption. }
  unfold nonzero_count in Hfew. rewrite <- (nonzero_from_filter 0) in Hfew.
  fold (nonzero_pairs freqs) in Hfew.
  destruct (nonzero_pairs freqs) as [|[i f] [|??]] eqn:Hnz; simpl in Hfew; [|clear Hfew|lia].
  - exfalso. destruct (create_huff_tree_Some _ _ _ Htree) as (Hsum & _).
    apply Hsum. rewrite <- (nonzero_from_sum 0 freqs).
    fold (nonzero_pairs freqs). by rewrite Hnz.
  - eapply (all_same_text i); [by eapply single_symbol_text..|lia].
Qed.

(** X14.  The encoding loses nothing: two input files whose characters
    all have code points below 256 and for which huffman_encode writes the
    same output hold the same text.  (The header gives the counts back,
    the counts give the code table back, and the payload is then read in
    one way only; with a single symbol the count alone gives the text.) *)
Theorem huffman_encode_lossless (fuel1 fuel2 : nat)
    (in1 out1 in2 out2 : string) (fs1 fs2 : gmap string text) (data1 data2 : text) :
  fs1 !! in1 = Some data1 → fs2 !! in2 = Some data2 →
  in_alphabet data1 → in_alphabet data2 →
  (256 ≤ fuel1)%nat → (256 ≤ fuel2)%nat →
  (huffman_encode fuel1 in1 out1 fs1).2 !! out1 =
    (huffman_encode fuel2 in2 out2 fs2).2 !! out2 →
  data1 = data2.
Proof.
  intros Hfs1 Hfs2 Hd1 Hd2 Hf1 Hf2 Hout.
  destruct (huffman_encode_content fuel1 in1 out1 fs1 data1 Hfs1 Hd1 Hf1)
    as [[-> Ho1]|(Hne1 & freqs1 & root1 & codes1 & Hl1 & Hs1 & Hu1 & Ht1 & Hc1 & Ho1)];
  destruct (huffman_encode_content fuel2 in2 out2 fs2 data2 Hfs2 Hd2 Hf2)
    as [[-> Ho2]|(Hne2 & freqs2 & root2 & codes2 & Hl2 & Hs2 & Hu2 & Ht2 & Hc2 & Ho2)];
  rewrite Ho1, Ho2 in Hout.
  - done.
  - exfalso. injection Hout as Hout. symmetry in Hout.
    by apply text_of_string_newline in Hout.
  - exfalso. injection Hout as Hout. by apply text_of_string_newline in Hout.
  - injection Hout as Hout. apply text_of_string_inj in Hout.
    change (create_header freqs1 +:+ String newline_char (payload codes1 data1) =
            create_header freqs2 +:+ String newline_char (payload codes2 data2)) in Hout.
    apply split_at_sep in Hout as [Hh Hp]; [|apply create_header_no_newline..].
    assert (freqs1 = freqs2) as ->.
    { apply nonzero_pairs_inj; [congruence|]. by apply create_header_inj. }
    assert (root1 = root2) as -> by congruence.
    assert (codes1 = codes2) as -> by congruence.
    by eapply (same_output_same_text freqs2 root2 codes2).
Qed.

Lemma huffman_encode_lossless_witness :
  abc_fs !! "in" = Some (text_of_string "aaabbbbcc") ∧
  zzzz_fs !! "in" = Some (text_of_string "zzzz") ∧
  in_alphabet (text_of_string "aaabbbbcc") ∧ in_alphabet (text_of_string "zzzz") ∧
  (256 ≤ 256)%nat ∧
  (huffman_encode 256 "in" "out" abc_fs).2 !! "out" ≠
    (huffman_encode 256 "in" "out" zzzz_fs).2 !! "out".
Proof.
  assert (abc_fs !! "in" = Some (text_of_string "aaabbbbcc")) as Hfs1 by reflexivity.
  assert (zzzz_fs !! "in" = Some (text_of_string "zzzz")) as Hfs2 by reflexivity.
  assert (in_alphabet (text_of_string "aaabbbbcc")) as Hd1.
  { apply (bool_decide_unpack _). vm_compute. exact I. }
  assert (in_alphabet (text_of_string "zzzz")) as Hd2.
  { apply (bool_decide_unpack _). vm_compute. exact I. }
  assert (256 ≤ 256)%nat as Hf by lia.
  split_and!; [exact Hfs1|exact Hfs2|exact Hd1|exact Hd2|exact Hf|].
  intros Hout.
  pose proof (huffman_encode_lossless 256 256 "in" "out" "in" "out" abc_fs zzzz_fs
                _ _ Hfs1 Hfs2 Hd1 Hd2 Hf Hf Hout) as E.
  discriminate E.
Defined.

(** ** How huffman_encode ends *)





(** ** The first call of huff_helper *)

(** X16.  For every list of integers, once create_huff_tree has created
    the leaves and sorted them by weight, no adjacent pair is out of order
    under comes_before, so that its first call of huff_helper returns the
    list as it is: the stable sort of leaves that are in ascending order
    of symbol already orders them by weight and then symbol. *)
Theorem first_huff_helper_call_is_identity (fuel : nat) (freqs : list Z) :
  adjacent_sorted (sort_by_freq (leaf_loop freqs 0 [])) ∧
  huff_helper (S fuel) (sort_by_freq (leaf_loop freqs 0 [])) =
    Done (sort_by_freq (leaf_loop freqs 0 [])).
Proof.
  assert (StronglySorted before (sort_by_freq (leaf_loop freqs 0 []))) as Hs.
  { rewrite leaf_loop_spec. simpl. apply sort_by_freq_leaves, leaf_nodes_sorted. }
  assert (adjacent_sorted (sort_by_freq (leaf_loop freqs 0 []))) as Hadj.
  { intros x a b Ha Hb. clear fuel. revert x a b Ha Hb.
    induction Hs as [|c l Hs IH Hall]; intros x a b Ha Hb; [done|].
    destruct x as [|x]; simplify_eq/=.
    - rewrite Forall_forall in Hall. apply Hall. eapply list_elem_of_lookup_2, Hb.
    - by apply (IH x). }
  split; [done|]. simpl. apply huff_for_sorted; [done|].
  intros x [_ Hx]%elem_of_seq. lia.
Qed.

(** ** Which child gets which digit *)

Lemma combine_ordered a b :
  comes_before a b = true → ordered a → ordered b →
  combine a b = mkHuffmanNode (Z.min (char_ascii a) (char_ascii b))
                  (freq a + freq b) (Some a) (Some b) ∧
  ordered (combine a b).
Proof.
  intros Hab Ha Hb.
  destruct (combine_cases a b) as [[E _]|[_ ?]]; [|congruence].
  split; [done|]. rewrite E. simpl. by split_and!.
Qed.

Lemma builds_ordered ws r : builds ws r → Forall ordered ws → ordered r.
Proof.
  induction 1 as [r|ws ws' r Hstep Hb IH]; intros Hall.
  - by apply Forall_cons in Hall as [? _].
  - apply IH. destruct Hstep as [ws ws' x y rest Hp Hx Hy Hp'].
    rewrite Hp in Hall. rewrite Hp'.
    apply Forall_cons in Hall as [Hox [Hoy Hrest]%Forall_cons].
    apply Forall_cons in Hx as [Hxy _].
    constructor; [|done]. by apply combine_ordered.
Qed.

(** X17.  In the tree create_huff_tree returns, at every node with
    children the left child comes before the right child under
    comes_before, so the digit 0 goes to the subtree of lower order; the
    node has the sum of the weights of its two children as weight and the
    lesser of their symbol ids as symbol id. *)
Theorem create_huff_tree_children_in_order (fuel : nat) (freqs : list Z)
    (root : HuffmanNode) :
  create_huff_tree fuel freqs = Done (Some root) →
  ordered root ∧
  ∀ m l r, m ∈ nodes root → left m = Some l → right m = Some r →
    comes_before l r = true ∧ freq m = freq l + freq r ∧
    char_ascii m = Z.min (char_ascii l) (char_ascii r).
Proof.
  intros Hrun.
  destruct (create_huff_tree_Some _ _ _ Hrun) as (Hsum & _ & _ & _ & Hall).
  destruct (create_huff_tree_builds freqs Hsum) as (root' & Hrun' & _ & _ & _ & Hb).
  assert (root' = root) as ->.
  { specialize (Hall (length freqs) ltac:(lia)).
    specialize (Hrun' (length freqs) ltac:(lia)). congruence. }
  assert (ordered root) as Hord.
  { apply (builds_ordered _ _ Hb). unfold leaf_nodes.
    apply Forall_fmap, Forall_forall. by intros [??] _. }
  split; [done|]. clear -Hord.
  induction root as [c f l r IHl IHr] using HuffmanNode_tree_ind.
  intros m l' r' Hm Hl Hr.
  destruct l as [l|], r as [r|]; simpl in Hord; try done.
  - destruct Hord as (Hlr & Hf & Hc & Hol & Hor). simpl in IHl, IHr, Hm.
    apply elem_of_cons in Hm as [->|Hm].
    + simpl in Hl, Hr. by simplify_eq.
    + apply elem_of_app in Hm as [Hm|Hm]; eauto.
  - simpl in Hm. apply list_elem_of_singleton in Hm as ->. done.
Qed.

Lemma create_huff_tree_children_in_order_witness :
  create_huff_tree 10 abc_freqs = Done (Some abc_root) ∧ ordered abc_root.
Proof.
  assert (create_huff_tree 10 abc_freqs = Done (Some abc_root)) as Hrun
    by (by vm_compute).
  split; [exact Hrun|].
  destruct (create_huff_tree_children_in_order _ _ _ Hrun) as [Hord _]. exact Hord.
Defined.

(** ** The depth of the recursion of huff_helper *)

Lemma huff_for_diverges (rec : list HuffmanNode → outcome (list HuffmanNode))
    (bound : nat) (l : list HuffmanNode) xs :
  (∀ l2, NoDup (key <$> l2) → (bound ≤ inversions l2)%nat → rec l2 = Diverge) →
  NoDup (key <$> l) → (S bound ≤ inversions l)%nat →
  (∀ x, x ∈ xs → (x + 1 < length l)%nat) →
  huff_for rec xs l = Diverge ∨
  (huff_for rec xs l = Done l ∧
   ∀ x a b, x ∈ xs → l !! x = Some a → l !! S x = Some b →
            comes_before a b = true).
Proof.
  intros Hrec Hnd Hinv. induction xs as [|x xs IH]; intros Hr; simpl.
  { right. split; [done|]. intros ??? []%elem_of_nil. }
  assert (x + 1 < length l)%nat as Hx by (apply Hr; left).
  destruct (lookup_lt_is_Some_2 l x) as [a Ha]; [lia|].
  destruct (lookup_lt_is_Some_2 l (x + 1)) as [b Hb]; [lia|].
  rewrite Ha, Hb. destruct (comes_before a b) eqn:Hab.
  - destruct IH as [?|[Hrun Hord]]; [intros y Hy; apply Hr; by right|by left|].
    right. split; [done|]. intros y a' b' [->|Hy]%elem_of_cons Ha' Hb'.
    + rewrite <- Nat.add_1_r in Hb'. by simplify_eq.
    + by apply (Hord y).
  - left. destruct (swap_adjacent l x a b Ha Hb) as (pre & post & Hl & ->).
    assert (key a ≠ key b) as Hk.
    { subst l. rewrite fmap_app, !fmap_cons in Hnd.
      apply NoDup_app in Hnd as (_ & _ & Hnd).
      apply NoDup_cons in Hnd as [Hnd _].
      intros E. apply Hnd. rewrite E. left. }
    pose proof (comes_before_total a b Hk Hab) as Hba.
    rewrite Hrec; [done| |].
    + rewrite <- (swap_perm pre post a b). by subst l.
    + subst l. rewrite (inversions_swap pre a b post Hba) in Hinv. lia.
Qed.

(** X18.  On a list of nodes with pairwise distinct (weight, symbol id)
    keys huff_helper recurses exactly one level per inversion: it returns
    at every budget above the number of inversions of the list, and runs
    out of budget at every budget up to that number. *)
Theorem huff_helper_depth (fuel : nat) (l : list HuffmanNode) :
  NoDup (key <$> l) →
  ((inversions l < fuel)%nat → ∃ l', huff_helper fuel l = Done l') ∧
  ((fuel ≤ inversions l)%nat → huff_helper fuel l = Diverge).
Proof.
  intros Hnd. split.
  - intros Hfuel. destruct (huff_helper_sorts fuel l Hnd Hfuel) as (l' & ? & _).
    by exists l'.
  - revert l Hnd. induction fuel as [|fuel IH]; intros l Hnd Hfuel; [done|].
    simpl.
    destruct (huff_for_diverges (huff_helper fuel) fuel l (seq 0 (length l - 1)))
      as [?|[_ Hord]]; [by intros; apply IH|done|done| |done|].
    + intros x [_ Hx]%elem_of_seq. lia.
    + exfalso. assert (adjacent_sorted l) as Hs.
      { intros x a b Ha Hb. apply (Hord x); [|done..].
        apply elem_of_seq. apply lookup_lt_Some in Hb. lia. }
      apply adjacent_sorted_StronglySorted, inversions_sorted in Hs. lia.
Qed.

Lemma huff_helper_depth_witness :
  NoDup (key <$> [leaf 1 3; leaf 1 2; leaf 0 2]) ∧
  (3 ≤ inversions [leaf 1 3; leaf 1 2; leaf 0 2])%nat ∧
  huff_helper 3 [leaf 1 3; leaf 1 2; leaf 0 2] = Diverge.
Proof.
  assert (NoDup (key <$> [leaf 1 3; leaf 1 2; leaf 0 2])) as Hnd.
  { apply (bool_decide_unpack _). vm_compute. exact I. }
  assert (3 ≤ inversions [leaf 1 3; leaf 1 2; leaf 0 2])%nat as Hinv.
  { vm_compute. lia. }
  split_and!; [exact Hnd|exact Hinv|].
  destruct (huff_helper_depth 3 _ Hnd) as [_ Hdiv]. exact (Hdiv Hinv).
Defined.
